(** * Liquid background: the particle-field animation engine of liquid-bg.js

    A shallow embedding of [class LiquidBackground] and of the
    [DOMContentLoaded] handler that mounts it, followed by the properties
    the specification states about them.

    Conventions of the embedding.
    - JavaScript numbers are read as real numbers (exact arithmetic), so
      [Math.sqrt], [Math.sin] and [Math.cos] are [sqrt], [sin] and [cos].
    - [Math.random] is an ambient stream of numbers, threaded through the
      engine in the order the source draws from it.
    - The browser is the environment: what it hands to the engine
      (container dimensions, pointer coordinates, the pixel data that
      [getImageData] returns) arrives as arguments and event payloads, and
      what the engine asks the canvas to paint leaves as a list of drawing
      commands. *)

From Stdlib Require Import Reals Lra Lia Psatz ZArith List String Bool.
From Stdlib Require Import ZifyNat.
From Equations Require Import Equations.
Import ListNotations.

Open Scope R_scope.

#[local] Arguments INR _ : simpl never.

(** Linear arithmetic with division and remainder by constants. *)
Ltac div_lia := zify; Z.to_euclidean_division_equations; lia.

(** ** Ambient randomness *)

(** The values [Math.random()] will return, the next one first. *)
Definition Random := nat -> R.

Definition skip (k : nat) (g : Random) : Random := fun n => g (n + k)%nat.

(** What the platform promises of [Math.random]: every value is in [0,1). *)
Definition unitRange (g : Random) : Prop := forall n, 0 <= g n < 1.

(** [Math.floor] *)
Definition floor (v : R) : Z := (up v - 1)%Z.

(** [a[i]] on a JavaScript array: [undefined] outside the array. *)
Definition elementAt {A : Type} (l : list A) (i : Z) : option A :=
  if (i <? 0)%Z then None else nth_error l (Z.to_nat i).

(** ** Data model *)

Module Mouse.
(** [this.mouse = { x, y, targetX, targetY }]: the smoothed pointer and
    the raw target the input handlers write. *)
Record t := mk { x : R; y : R; targetX : R; targetY : R }.
End Mouse.

Module Particle.
(** One object pushed by [createParticles]. [color] is [None] where the
    palette lookup yields [undefined]. *)
Record t := mk {
  x : R; y : R;
  baseX : R; baseY : R;
  size : R;
  speedX : R; speedY : R;
  color : option string;
  phase : R;
  amplitude : R
}.
End Particle.

(** The mount container, as far as the engine reads it. [offsetWidth] and
    [offsetHeight] are non-negative integers. *)
Record Container := { offsetWidth : nat; offsetHeight : nat }.

(** [ImageData.data]: a [Uint8ClampedArray] of RGBA channel bytes. *)
Definition ImageData := list Z.

(** What the engine asks the 2D context to do in a tick. *)
Inductive Draw :=
| FillRect (style : string) (x y w h : R)
| Glow (cx cy radius : R) (color : option string)
| PutImageData (data : ImageData).

(** The fields of a [LiquidBackground] instance, with the two pieces of
    ambient state the methods touch: the [Math.random] stream and the
    number of callbacks handed to [requestAnimationFrame] and not yet run. *)
Record LiquidBackground := mkEngine {
  width : nat;
  height : nat;
  particleCount : nat;
  particles : list Particle.t;
  mouse : Mouse.t;
  time : R;
  isRunning : bool;
  colors : list string;
  random : Random;
  scheduled : nat
}.

(** ** Constants of the source *)

Definition palette : list string :=
  [ "rgba(139, 92, 246, 0.6)"; "rgba(99, 102, 241, 0.5)";
    "rgba(79, 70, 229, 0.4)"; "rgba(124, 58, 237, 0.5)";
    "rgba(67, 56, 202, 0.3)" ]%string.

Definition timeStep : R := 1 / 100.
Definition smoothing : R := 5 / 100.
Definition maxDist : R := 400.
Definition gain : R := 2 / 100.

(** ** resize, createParticles, init *)

Definition resize (c : Container) (e : LiquidBackground) : LiquidBackground :=
  mkEngine (offsetWidth c) (offsetHeight c) (particleCount e) (particles e)
           (mouse e) (time e) (isRunning e) (colors e) (random e)
           (scheduled e).

(** The object literal of [createParticles]: ten draws, in source order. *)
Definition newParticle (w h : nat) (cols : list string) (g : Random)
  : Particle.t :=
  Particle.mk
    (g 0%nat * INR w)
    (g 1%nat * INR h)
    (g 2%nat * INR w)
    (g 3%nat * INR h)
    (g 4%nat * 150 + 80)
    ((g 5%nat - 1 / 2) * (1 / 2))
    ((g 6%nat - 1 / 2) * (1 / 2))
    (elementAt cols (floor (g 7%nat * INR (List.length cols))))
    (g 8%nat * PI * 2)
    (g 9%nat * 50 + 30).

(** The [for] loop of [createParticles], pushing onto [acc]. *)
Fixpoint pushParticles (count : nat) (w h : nat) (cols : list string)
    (g : Random) (acc : list Particle.t) : list Particle.t * Random :=
  match count with
  | O => (acc, g)
  | S count' =>
      pushParticles count' w h cols (skip 10 g)
                    (acc ++ [newParticle w h cols g])
  end.

Definition createParticles (e : LiquidBackground) : LiquidBackground :=
  let created :=
    pushParticles (particleCount e) (width e) (height e) (colors e)
                  (random e) [] in
  mkEngine (width e) (height e) (particleCount e) (fst created) (mouse e)
           (time e) (isRunning e) (colors e) (snd created) (scheduled e).

Definition init (c : Container) (e : LiquidBackground) : LiquidBackground :=
  createParticles (resize c e).

(** ** addNoise *)

(** [Math.max(0, Math.min(255, v))] *)
Definition clampChannel (v : R) : R := Rmax 0 (Rmin 255 v).

(** The conversion a [Uint8ClampedArray] applies to a stored number:
    clamp to [0,255], round to the nearest integer, ties to even. *)
Definition toUint8Clamp (v : R) : Z :=
  if Rle_dec v 0 then 0%Z
  else if Rle_dec 255 v then 255%Z
  else
    let f := floor v in
    if Rlt_dec (IZR f + 1 / 2) v then (f + 1)%Z
    else if Rlt_dec v (IZR f + 1 / 2) then f
    else if Z.even f then f else (f + 1)%Z.

(** [data[i]] read as a number. Only reads inside the array reach the
    result: a read outside feeds a store outside, which is dropped. *)
Definition getChannel (i : nat) (data : ImageData) : R := IZR (nth i data 0%Z).

(** [data[i] = v]: a typed array ignores a store outside its length. *)
Fixpoint setChannel (i : nat) (v : R) (data : ImageData) : ImageData :=
  match data, i with
  | [], _ => []
  | _ :: rest, O => toUint8Clamp v :: rest
  | c :: rest, S i' => c :: setChannel i' v rest
  end.

(** The body of the loop at index [i]: one draw, three channels. *)
Definition grain (i : nat) (st : Random * ImageData) : Random * ImageData :=
  let noise := (fst st 0%nat - 1 / 2) * 8 in
  let d0 := snd st in
  let d1 := setChannel i (clampChannel (getChannel i d0 + noise)) d0 in
  let d2 :=
    setChannel (i + 1) (clampChannel (getChannel (i + 1) d1 + noise)) d1 in
  let d3 :=
    setChannel (i + 2) (clampChannel (getChannel (i + 2) d2 + noise)) d2 in
  (skip 1 (fst st), d3).

(** [for (let i = 0; i < data.length; i += 16)], entered at index [i]. *)
Equations? grainFrom (i : nat) (st : Random * ImageData)
  : Random * ImageData by wf (List.length (snd st) - i)%nat lt :=
  grainFrom i st with lt_dec i (List.length (snd st)) := {
    | left _ => grainFrom (i + 16) (grain i st);
    | right _ => st }.
Proof.
  assert (Hlen : forall k v d,
             List.length (setChannel k v d) = List.length d).
  { intros k v d; revert k.
    induction d as [|c rest IH]; intros [|k]; simpl; auto. }
  rewrite !Hlen. lia.
Qed.

(** [addNoise], on the pixel data [getImageData] returned; the data it
    hands to [putImageData] and the stream left for later draws. *)
Definition addNoise (g : Random) (data : ImageData) : Random * ImageData :=
  grainFrom 0 (g, data).

(** ** animate *)

(** [cur += (target - cur) * k], the smoothed pointer's approach, in
    exact arithmetic: the source rounds each step to a double, so what is
    proved of [follow] is proved of the update rule, not of its rounding. *)
Definition follow (k cur target : R) : R := cur + (target - cur) * k.

Definition followMouse (m : Mouse.t) : Mouse.t :=
  Mouse.mk (follow smoothing (Mouse.x m) (Mouse.targetX m))
           (follow smoothing (Mouse.y m) (Mouse.targetY m))
           (Mouse.targetX m) (Mouse.targetY m).

Definition setPosition (x y : R) (p : Particle.t) : Particle.t :=
  Particle.mk x y (Particle.baseX p) (Particle.baseY p) (Particle.size p)
              (Particle.speedX p) (Particle.speedY p) (Particle.color p)
              (Particle.phase p) (Particle.amplitude p).

(** Base movement. *)
Definition drift (p : Particle.t) : Particle.t :=
  setPosition (Particle.x p + Particle.speedX p)
              (Particle.y p + Particle.speedY p) p.

Definition oscillateX (t : R) (p : Particle.t) : R :=
  sin (t + Particle.phase p) * Particle.amplitude p.

Definition oscillateY (t : R) (p : Particle.t) : R :=
  cos (t * (8 / 10) + Particle.phase p) * Particle.amplitude p.

(** [const force = (maxDist - dist) / maxDist] *)
Definition force (dist : R) : R := (maxDist - dist) / maxDist.

(** Mouse interaction. *)
Definition mouseInteraction (m : Mouse.t) (p : Particle.t) : Particle.t :=
  let dx := Mouse.x m - Particle.x p in
  let dy := Mouse.y m - Particle.y p in
  let dist := sqrt (dx * dx + dy * dy) in
  if Rlt_dec dist maxDist
  then setPosition (Particle.x p - dx * force dist * gain)
                   (Particle.y p - dy * force dist * gain) p
  else p.

(** The two [if]s that wrap one coordinate, in source order. *)
Definition wrap (extent size v : R) : R :=
  let v1 := if Rlt_dec v (- size) then extent + size else v in
  if Rgt_dec v1 (extent + size) then - size else v1.

(** Keep in bounds with wrapping. *)
Definition keepInBounds (w h : nat) (p : Particle.t) : Particle.t :=
  setPosition (wrap (INR w) (Particle.size p) (Particle.x p))
              (wrap (INR h) (Particle.size p) (Particle.y p)) p.

(** The position a particle is left with by one run of the [forEach]
    callback. *)
Definition moveParticle (w h : nat) (m : Mouse.t) (p : Particle.t)
  : Particle.t :=
  keepInBounds w h (mouseInteraction m (drift p)).

(** Where the callback centres the glow of a particle it has moved: the
    oscillation is taken from the phase and amplitude at time [t] and is
    added to the stored position only here. *)
Definition renderedX (t : R) (p : Particle.t) : R :=
  Particle.x p + oscillateX t p.

Definition renderedY (t : R) (p : Particle.t) : R :=
  Particle.y p + oscillateY t p.

(** The radial gradient and arc of a moved particle; the colour stops are
    all derived from [particle.color]. *)
Definition glow (t : R) (p : Particle.t) : Draw :=
  Glow (renderedX t p) (renderedY t p) (Particle.size p) (Particle.color p).

Definition fadeStyle : string := "rgba(10, 10, 10, 0.15)".

(** One call of [animate]. [img] is what [getImageData] returns inside
    [addNoise]. A paused engine returns at once; a running one ticks and
    hands itself to [requestAnimationFrame]. *)
Definition animate (img : ImageData) (e : LiquidBackground)
  : LiquidBackground * list Draw :=
  if negb (isRunning e) then (e, [])
  else
    let t := time e + timeStep in
    let m := followMouse (mouse e) in
    let ps := map (moveParticle (width e) (height e) m) (particles e) in
    let noisy := addNoise (random e) img in
    (mkEngine (width e) (height e) (particleCount e) ps m t (isRunning e)
              (colors e) (fst noisy) (S (scheduled e)),
     FillRect fadeStyle 0 0 (INR (width e)) (INR (height e))
       :: map (glow t) ps ++ [PutImageData (snd noisy)]).

(** ** bindEvents: the listeners, as a transition on events *)

Inductive Event :=
| MouseMove (clientX clientY : R)
| TouchMove (touches : list (R * R))
| WindowResize (c : Container)
| VisibilityChange (hidden : bool) (img : ImageData)
| AnimationFrame (img : ImageData).

Definition setTarget (x y : R) (e : LiquidBackground) : LiquidBackground :=
  mkEngine (width e) (height e) (particleCount e) (particles e)
           (Mouse.mk (Mouse.x (mouse e)) (Mouse.y (mouse e)) x y)
           (time e) (isRunning e) (colors e) (random e) (scheduled e).

Definition setRunning (b : bool) (e : LiquidBackground) : LiquidBackground :=
  mkEngine (width e) (height e) (particleCount e) (particles e) (mouse e)
           (time e) b (colors e) (random e) (scheduled e).

Definition setScheduled (n : nat) (e : LiquidBackground) : LiquidBackground :=
  mkEngine (width e) (height e) (particleCount e) (particles e) (mouse e)
           (time e) (isRunning e) (colors e) (random e) n.

(** What each listener does to the engine, and what it paints. An
    animation frame runs one callback that is waiting, if there is one. *)
Definition handle (ev : Event) (e : LiquidBackground)
  : LiquidBackground * list Draw :=
  match ev with
  | MouseMove x y => (setTarget x y e, [])
  | TouchMove touches =>
      match touches with
      | (x, y) :: _ => (setTarget x y e, [])
      | [] => (e, [])
      end
  | WindowResize c => (createParticles (resize c e), [])
  | VisibilityChange hidden img =>
      let e' := setRunning (negb hidden) e in
      if isRunning e' then animate img e' else (e', [])
  | AnimationFrame img =>
      match scheduled e with
      | O => (e, [])
      | S n => animate img (setScheduled n e)
      end
  end.

(** The engine after a sequence of events. *)
Fixpoint run (evs : list Event) (e : LiquidBackground) : LiquidBackground :=
  match evs with
  | [] => e
  | ev :: rest => run rest (fst (handle ev e))
  end.

(** ** The constructor and the page hook *)

Inductive Exception := TypeError (what : string).

(** [new LiquidBackground(container)]. A [null] container makes
    [this.container.appendChild] throw; otherwise the fields are set, the
    particles created and the first tick run. *)
Definition construct (container : option Container) (g : Random)
    (img : ImageData) : Exception + LiquidBackground :=
  match container with
  | None => inl (TypeError "this.container is null")
  | Some c =>
      let blank :=
        mkEngine 0 0 80 [] (Mouse.mk 0 0 0 0) 0 true palette g 0 in
      inr (fst (animate img (init c blank)))
  end.

(** The [DOMContentLoaded] listener; [found] is what
    [document.querySelector('.hero-bg')] returns. The result is the engine
    it mounted, if any, or the exception that escaped. *)
Definition onDOMContentLoaded (found : option Container) (g : Random)
    (img : ImageData) : Exception + option LiquidBackground :=
  match found with
  | Some c =>
      match construct (Some c) g img with
      | inl ex => inl ex
      | inr e => inr (Some e)
      end
  | None => inr None
  end.

(** Everything painted over a sequence of events. *)
Fixpoint painted (evs : list Event) (e : LiquidBackground) : list Draw :=
  match evs with
  | [] => []
  | ev :: rest => snd (handle ev e) ++ painted rest (fst (handle ev e))
  end.

(** An engine holding other particles, all else equal. *)
Definition setParticles (ps : list Particle.t) (e : LiquidBackground)
  : LiquidBackground :=
  mkEngine (width e) (height e) (particleCount e) ps (mouse e) (time e)
           (isRunning e) (colors e) (random e) (scheduled e).

(** The state invariant: the configured count is 80 and that many
    particles are held. *)
Definition fullField (e : LiquidBackground) : Prop :=
  particleCount e = 80%nat /\ List.length (particles e) = 80%nat.

(** What creation guarantees of a particle when [Math.random] is in
    [0,1): the documented size and amplitude ranges and a palette colour. *)
Definition asCreated (p : Particle.t) : Prop :=
  80 <= Particle.size p < 230 /\
  30 <= Particle.amplitude p < 80 /\
  In (Particle.color p) (map Some palette).

(** Engine states as the constructor and the listeners produce them. *)
Definition sound (e : LiquidBackground) : Prop :=
  colors e = palette /\
  unitRange (random e) /\
  Forall asCreated (particles e).

(** Events that neither restore visibility nor resize the window. *)
Definition keepsPaused (ev : Event) : bool :=
  match ev with
  | WindowResize _ => false
  | VisibilityChange hidden _ => hidden
  | MouseMove _ _ | TouchMove _ | AnimationFrame _ => true
  end.

(** What a pause is meant to freeze: the particles, the clock and the
    smoothed pointer. *)
Definition sameMotion (e e' : LiquidBackground) : Prop :=
  particles e' = particles e /\
  time e' = time e /\
  Mouse.x (mouse e') = Mouse.x (mouse e) /\
  Mouse.y (mouse e') = Mouse.y (mouse e).

(** A channel value a [Uint8ClampedArray] can hold. *)
Definition inByte (c : Z) : Prop := (0 <= c <= 255)%Z.

(** The engine after running the tick body once per entry of [imgs]. *)
Definition tick (img : ImageData) (e : LiquidBackground) : LiquidBackground :=
  fst (animate img e).


(** [n] smoothing updates of one coordinate toward a fixed raw target. *)
Definition settle (k raw : R) (n : nat) (s0 : R) : R :=
  Nat.iter n (fun s => follow k s raw) s0.

(** The force the pointer exerts at distance [dist]: what the guarded
    branch of the mouse interaction multiplies into the displacement, and
    nothing where the branch is not taken. *)
Definition pointerForce (dist : R) : R :=
  if Rlt_dec dist maxDist then force dist else 0.



(** Stored position inside the wrap box of a [w] by [h] viewport. *)
Definition inBox (w h : nat) (p : Particle.t) : Prop :=
  - Particle.size p <= Particle.x p <= INR w + Particle.size p /\
  - Particle.size p <= Particle.y p <= INR h + Particle.size p.

(** What the wrap step does to the particle [q] that the drift and the
    pointer produced from one of size [s], giving [p']: each coordinate
    below the box lands exactly on the upper edge, each one above it
    exactly on the lower edge, each one inside is kept. *)
Definition wrapsTo (w h : nat) (s : R) (q p' : Particle.t) : Prop :=
  (Particle.x q < - s -> Particle.x p' = INR w + s) /\
  (Particle.x q > INR w + s -> Particle.x p' = - s) /\
  (- s <= Particle.x q <= INR w + s -> Particle.x p' = Particle.x q) /\
  (Particle.y q < - s -> Particle.y p' = INR h + s) /\
  (Particle.y q > INR h + s -> Particle.y p' = - s) /\
  (- s <= Particle.y q <= INR h + s -> Particle.y p' = Particle.y q).

(** The scenario engine: one particle of size [s] at the origin, no
    drift, no oscillation, a 200 by 200 viewport, the smoothed pointer at
    the origin. *)
Definition stillParticle (s : R) : Particle.t :=
  Particle.mk 0 0 0 0 s 0 0 (Some "rgba(139, 92, 246, 0.6)"%string) 0 0.

Definition scenario (s : R) : LiquidBackground :=
  mkEngine 200 200 1 [stillParticle s] (Mouse.mk 0 0 0 0) 0 true palette
           (fun _ => 1 / 2) 1.

(** The push the scenario particle receives once the pointer has moved
    to (50,50): about 0.82 units along each axis. *)
Definition scenarioPush : R := force (sqrt 5000).

(** A particle about to leave a 1000 by 1000 viewport through its top
    edge: smallest size and amplitude creation gives, inside the wrap box,
    drifting upward, with the pointer resting at the origin. *)
Definition edgeParticle : Particle.t :=
  Particle.mk 500 (- (799 / 10)) 0 0 80 0 (- (2 / 10))
              (Some "rgba(139, 92, 246, 0.6)"%string) 0 30.

Definition edgeEngine : LiquidBackground :=
  mkEngine 1000 1000 1 [edgeParticle] (Mouse.mk 0 0 0 0) 0 true palette
           (fun _ => 1 / 2) 1.

(** The invariant of the particle field: a state as the engine produces
    it, with every stored position inside the wrap box of the current
    viewport. *)
Definition fieldInBox (e : LiquidBackground) : Prop :=
  sound e /\ Forall (inBox (width e) (height e)) (particles e).

(** ** Vocabulary for the grain *)

(** A channel value after the noise was added: clamped by the source,
    converted by the array. *)
Definition nudge (noise : R) (c : Z) : Z :=
  toUint8Clamp (clampChannel (IZR c + noise)).

(** The noise of the pass that visits channel [k]: pass number [k / 16]
    takes the draw of that number. *)
Definition noiseAt (g : Random) (k : nat) : R :=
  (g (k / 16)%nat - 1 / 2) * 8.

(** The channels the loop visits: the first three of every sixteen. *)
Definition sampled (len k : nat) : bool :=
  ((k <? len)%nat && (k mod 16 <? 3)%nat)%bool.

(** ** Vocabulary for the listeners *)

(** The raw target a pointer listener writes for an event, if any. *)
Definition targetOf (ev : Event) : option (R * R) :=
  match ev with
  | MouseMove x y => Some (x, y)
  | TouchMove ((x, y) :: _) => Some (x, y)
  | TouchMove [] | WindowResize _ | VisibilityChange _ _
  | AnimationFrame _ => None
  end.

Definition isPointerEvent (ev : Event) : bool :=
  match ev with
  | MouseMove _ _ | TouchMove _ => true
  | WindowResize _ | VisibilityChange _ _ | AnimationFrame _ => false
  end.

Definition isVisibilityChange (ev : Event) : bool :=
  match ev with
  | VisibilityChange _ _ => true
  | MouseMove _ _ | TouchMove _ | WindowResize _ | AnimationFrame _ => false
  end.

(** The number of animation frames among the events. *)
Fixpoint frameCount (evs : list Event) : nat :=
  match evs with
  | [] => O
  | AnimationFrame _ :: rest => S (frameCount rest)
  | MouseMove _ _ :: rest | TouchMove _ :: rest | WindowResize _ :: rest
  | VisibilityChange _ _ :: rest => frameCount rest
  end.

(** The target left by a burst of events, [cur] if none writes one. *)
Fixpoint lastTarget (evs : list Event) (cur : option (R * R))
  : option (R * R) :=
  match evs with
  | [] => cur
  | ev :: rest =>
      lastTarget rest (match targetOf ev with
                       | Some t => Some t
                       | None => cur
                       end)
  end.

Definition withTarget (t : option (R * R)) (e : LiquidBackground)
  : LiquidBackground :=
  match t with
  | Some (x, y) => setTarget x y e
  | None => e
  end.

(** The number of fade fills in a drawing log: one per tick body run. *)
Fixpoint fades (ds : list Draw) : nat :=
  match ds with
  | [] => O
  | FillRect _ _ _ _ _ :: rest => S (fades rest)
  | Glow _ _ _ _ :: rest | PutImageData _ :: rest => fades rest
  end.

(** The smoothed pointer and its raw target inside a rectangle. *)
Definition pointerWithin (xlo xhi ylo yhi : R) (m : Mouse.t) : Prop :=
  (xlo <= Mouse.x m <= xhi /\ xlo <= Mouse.targetX m <= xhi) /\
  (ylo <= Mouse.y m <= yhi /\ ylo <= Mouse.targetY m <= yhi).

(** Every target the events write lies inside the rectangle. *)
Definition targetsWithin (xlo xhi ylo yhi : R) (evs : list Event) : Prop :=
  forall ev x y, In ev evs -> targetOf ev = Some (x, y) ->
                 xlo <= x <= xhi /\ ylo <= y <= yhi.

(** What creation fixes for the life of a particle. *)
Definition sameIdentity (p p' : Particle.t) : Prop :=
  Particle.baseX p' = Particle.baseX p /\
  Particle.baseY p' = Particle.baseY p /\
  Particle.size p' = Particle.size p /\
  Particle.speedX p' = Particle.speedX p /\
  Particle.speedY p' = Particle.speedY p /\
  Particle.color p' = Particle.color p /\
  Particle.phase p' = Particle.phase p /\
  Particle.amplitude p' = Particle.amplitude p.

(** What creation gives a particle beyond [asCreated]: a position inside
    the viewport, a drift below a quarter unit per tick and axis, and a
    phase within one turn. *)
Definition placedIn (w h : nat) (p : Particle.t) : Prop :=
  0 <= Particle.x p <= INR w /\ 0 <= Particle.y p <= INR h /\
  0 <= Particle.baseX p <= INR w /\ 0 <= Particle.baseY p <= INR h /\
  - (1 / 4) <= Particle.speedX p < 1 / 4 /\
  - (1 / 4) <= Particle.speedY p < 1 / 4 /\
  0 <= Particle.phase p < 2 * PI.

(** ** The page script: animated counters *)

(** [Math.round]: the nearest integer, halves upward. *)
Definition round (v : R) : Z := floor (v + 1 / 2).

Module Counter.

(** The state [animateCounter] closes over: the parsed [data-count],
    the two [let] variables, the element text ([None] while it is still
    what the page shipped) and whether the interval timer is live. *)
Record t := mk {
  target : Z;
  step : nat;
  current : Z;
  textContent : option Z;
  timer : bool
}.

Definition steps : nat := 60.

(** [const increment = target / steps] *)
Definition increment (c : t) : R := IZR (target c) / INR steps.

(** [animateCounter(element)], for an element whose [data-count] parses
    to [tgt]: the variables are initialised and the timer started. *)
Definition animateCounter (tgt : Z) : t := mk tgt 0 0 None true.

(** One run of the interval callback; a cleared timer calls nothing. *)
Definition onInterval (c : t) : t :=
  if timer c then
    let step' := S (step c) in
    let current' := Z.min (round (increment c * INR step')) (target c) in
    if (steps <=? step')%nat
    then mk (target c) step' current' (Some (target c)) false
    else mk (target c) step' current' (Some current') true
  else c.

(** The counter after the timer fired [n] times. *)
Definition after (n : nat) (c : t) : t := Nat.iter n onInterval c.

End Counter.

(** The number the counter shows after its [n]-th callback, for a
    target [tgt]. *)
Definition shown (tgt : Z) (n : nat) : Z :=
  Z.min (round (IZR tgt / INR Counter.steps * INR n)) tgt.

(** ** The page script: navigation highlight *)

Module Nav.

(** A [section[id]] element, as the scroll listener reads it. *)
Record Section := mkSection {
  offsetTop : Z;
  offsetHeight : Z;
  id : string
}.

(** A navigation link: its [href] attribute and whether its class list
    holds [active]. *)
Record Link := mkLink { href : option string; active : bool }.

(** [scrollY > sectionTop && scrollY <= sectionTop + sectionHeight] with
    [sectionTop = section.offsetTop - 100]. *)
Definition inView (scrollY : R) (s : Section) : bool :=
  if Rgt_dec scrollY (IZR (offsetTop s - 100)) then
    if Rle_dec scrollY (IZR (offsetTop s - 100 + offsetHeight s))
    then true else false
  else false.

(** [link.getAttribute('href') === `#${sectionId}`] *)
Definition pointsTo (sectionId : string) (l : Link) : bool :=
  match href l with
  | Some h => String.eqb h (String.append "#" sectionId)
  | None => false
  end.

(** The inner [navLinks.forEach]: drop [active] everywhere, then put it
    on the links that point to the section. *)
Definition highlight (sectionId : string) (links : list Link) : list Link :=
  map (fun l => mkLink (href l) (pointsTo sectionId l)) links.

(** The scroll listener: the sections are visited in document order. *)
Definition onScroll (scrollY : R) (sections : list Section)
    (links : list Link) : list Link :=
  fold_left
    (fun ls s => if inView scrollY s then highlight (id s) ls else ls)
    sections links.

(** The section found last in document order among those in view. *)
Definition lastInView (scrollY : R) (sections : list Section)
  : option Section :=
  find (inView scrollY) (rev sections).

End Nav.

(** ** The page script: mobile menu *)

Module Menu.

(** What the menu listeners read and write: the [active] class of the
    button and of the menu, [document.body.style.overflow] and the
    button's [aria-expanded] attribute ([None] while never set). *)
Record t := mk {
  btnActive : bool;
  menuActive : bool;
  bodyOverflow : string;
  ariaExpanded : option string
}.

Inductive Event :=
| BtnClick
| LinkClick
| KeyDown (key : string).

(** What a link click and an effective Escape both do. *)
Definition closed : t := mk false false EmptyString (Some "false"%string).

Definition handle (ev : Event) (s : t) : t :=
  match ev with
  | BtnClick =>
      let isActive := negb (btnActive s) in
      mk isActive (negb (menuActive s))
         (if isActive then "hidden"%string else EmptyString)
         (Some (if isActive then "true" else "false")%string)
  | LinkClick => closed
  | KeyDown key =>
      if (String.eqb key "Escape" && menuActive s)%bool then closed else s
  end.

Definition run (evs : list Event) (s : t) : t :=
  fold_left (fun s ev => handle ev s) evs s.

(** Button, menu, page scroll lock and ARIA state all agree. *)
Definition inSync (s : t) : Prop :=
  menuActive s = btnActive s /\
  bodyOverflow s = (if btnActive s then "hidden"%string else EmptyString) /\
  ariaExpanded s = Some (if btnActive s then "true" else "false")%string.

End Menu.

(** * Properties *)

(** ** Boundary wrap *)

Section Wrap.
Variables extent size : R.
Hypothesis extent_nonneg : 0 <= extent.
Hypothesis size_nonneg : 0 <= size.

Lemma wrap_below v : v < - size -> wrap extent size v = extent + size.
Proof.
  intros Hv. unfold wrap.
  destruct (Rlt_dec v (- size)) as [_|Hn]; [|contradiction].
  destruct (Rgt_dec (extent + size) (extent + size)) as [Hgt|_]; [lra|reflexivity].
Qed.

Lemma wrap_above v : v > extent + size -> wrap extent size v = - size.
Proof.
  intros Hv. unfold wrap.
  destruct (Rlt_dec v (- size)) as [Hlt|_]; [lra|].
  destruct (Rgt_dec v (extent + size)) as [_|Hn]; [reflexivity|contradiction].
Qed.

Lemma wrap_inside v :
  - size <= v <= extent + size -> wrap extent size v = v.
Proof.
  intros Hv. unfold wrap.
  destruct (Rlt_dec v (- size)) as [Hlt|_]; [lra|].
  destruct (Rgt_dec v (extent + size)) as [Hgt|_]; [lra|reflexivity].
Qed.

Lemma wrap_range v : - size <= wrap extent size v <= extent + size.
Proof.
  destruct (Rlt_dec v (- size)) as [Hlt|Hge].
  - rewrite wrap_below by assumption. lra.
  - destruct (Rgt_dec v (extent + size)) as [Hgt|Hle].
    + rewrite wrap_above by assumption. lra.
    + rewrite wrap_inside by lra. lra.
Qed.
End Wrap.

Lemma size_setPosition x y p :
  Particle.size (setPosition x y p) = Particle.size p.
Proof. reflexivity. Qed.

Lemma size_mouseInteraction m p :
  Particle.size (mouseInteraction m p) = Particle.size p.
Proof.
  unfold mouseInteraction.
  destruct (Rlt_dec _ maxDist); reflexivity.
Qed.

Lemma size_moveParticle w h m p :
  Particle.size (moveParticle w h m p) = Particle.size p.
Proof.
  unfold moveParticle, keepInBounds.
  now rewrite size_setPosition, size_mouseInteraction.
Qed.

Lemma moveParticle_inBox w h m p :
  0 <= Particle.size p -> inBox w h (moveParticle w h m p).
Proof.
  intros Hs. unfold inBox. rewrite size_moveParticle.
  unfold moveParticle, keepInBounds; simpl.
  rewrite size_mouseInteraction; simpl.
  split; apply wrap_range; auto using pos_INR.
Qed.

Lemma animate_running img e :
  isRunning e = true ->
  animate img e =
    (mkEngine (width e) (height e) (particleCount e)
       (map (moveParticle (width e) (height e) (followMouse (mouse e)))
            (particles e))
       (followMouse (mouse e)) (time e + timeStep) true (colors e)
       (fst (addNoise (random e) img)) (S (scheduled e)),
     FillRect fadeStyle 0 0 (INR (width e)) (INR (height e))
       :: map (glow (time e + timeStep))
              (map (moveParticle (width e) (height e) (followMouse (mouse e)))
                   (particles e))
       ++ [PutImageData (snd (addNoise (random e) img))]).
Proof.
  intros Hrun. unfold animate. rewrite Hrun. reflexivity.
Qed.

Lemma animate_paused img e : isRunning e = false -> animate img e = (e, []).
Proof.
  intros Hrun. unfold animate. rewrite Hrun. reflexivity.
Qed.

(** C3. After the wrap step of a tick every stored position is inside
    [-size, width+size] x [-size, height+size], whatever the position
    before the tick, the drift and the pointer; a coordinate that the
    drift and the pointer left out of range is reset exactly to the
    opposite edge. Sizes are radii, hence not negative. *)
Theorem wrap_reenters_box (img : ImageData) (e : LiquidBackground) :
  isRunning e = true ->
  (forall p, In p (particles e) -> 0 <= Particle.size p) ->
  Forall2
    (fun p p' =>
       Particle.size p' = Particle.size p /\
       inBox (width e) (height e) p' /\
       wrapsTo (width e) (height e) (Particle.size p)
               (mouseInteraction (followMouse (mouse e)) (drift p)) p')
    (particles e) (particles (tick img e)).
Proof.
  intros Hrun Hsize. unfold tick. rewrite animate_running by assumption.
  simpl. induction (particles e) as [|p ps IH]; simpl; constructor.
  - assert (Hs : 0 <= Particle.size p) by (apply Hsize; now left).
    pose proof (pos_INR (width e)) as Hw.
    pose proof (pos_INR (height e)) as Hh.
    split; [apply size_moveParticle|].
    split; [now apply moveParticle_inBox|].
    unfold wrapsTo, moveParticle, keepInBounds; simpl.
    rewrite size_mouseInteraction; simpl.
    repeat split; intros Hq;
      first [ now apply wrap_below | now apply wrap_above
            | now apply wrap_inside ].
  - apply IH. intros p' Hin. apply Hsize. now right.
Qed.

Lemma wrap_reenters_box_witness :
  isRunning (scenario 80) = true /\
  (forall p, In p (particles (scenario 80)) -> 0 <= Particle.size p) /\
  Forall2
    (fun p p' =>
       Particle.size p' = Particle.size p /\
       inBox 200 200 p' /\
       wrapsTo 200 200 (Particle.size p)
               (mouseInteraction (followMouse (Mouse.mk 0 0 0 0)) (drift p))
               p')
    [stillParticle 80] (particles (tick [] (scenario 80))).
Proof.
  split; [reflexivity|].
  assert (Hs : forall p, In p (particles (scenario 80)) ->
                         0 <= Particle.size p).
  { intros p [<-|[]]. simpl. lra. }
  split; [exact Hs|].
  exact (wrap_reenters_box [] (scenario 80) eq_refl Hs).
Defined.

(** ** Pointer force *)

Lemma maxDist_pos : 0 < maxDist.
Proof. unfold maxDist; lra. Qed.

Lemma setPosition_same p : setPosition (Particle.x p) (Particle.y p) p = p.
Proof. destruct p; reflexivity. Qed.

(** The mouse interaction displaces a particle by the pointer offset
    scaled with [pointerForce] at their distance and with the gain. *)
Lemma mouseInteraction_pointerForce m p :
  let dx := Mouse.x m - Particle.x p in
  let dy := Mouse.y m - Particle.y p in
  let dist := sqrt (dx * dx + dy * dy) in
  mouseInteraction m p =
    setPosition (Particle.x p - dx * pointerForce dist * gain)
                (Particle.y p - dy * pointerForce dist * gain) p.
Proof.
  intros dx dy dist. unfold mouseInteraction, pointerForce.
  fold dx dy dist. destruct (Rlt_dec dist maxDist); [reflexivity|].
  replace (Particle.x p - dx * 0 * gain) with (Particle.x p) by ring.
  replace (Particle.y p - dy * 0 * gain) with (Particle.y p) by ring.
  symmetry; apply setPosition_same.
Qed.

(** C4. The pointer force is zero from distance [maxDist] = 400 on;
    below it, it is [(maxDist - dist) / maxDist], strictly positive,
    strictly larger at every smaller distance, and 1 at distance 0. *)
Theorem pointer_force_profile (m : Mouse.t) (p : Particle.t) (d d' : R) :
  (let dx := Mouse.x m - Particle.x p in
   let dy := Mouse.y m - Particle.y p in
   let dist := sqrt (dx * dx + dy * dy) in
   mouseInteraction m p =
     setPosition (Particle.x p - dx * pointerForce dist * gain)
                 (Particle.y p - dy * pointerForce dist * gain) p) /\
  maxDist = 400 /\
  (maxDist <= d -> pointerForce d = 0) /\
  (d < maxDist ->
   pointerForce d = (maxDist - d) / maxDist /\ 0 < pointerForce d) /\
  (d' < d -> d < maxDist -> pointerForce d < pointerForce d') /\
  pointerForce 0 = 1.
Proof.
  pose proof maxDist_pos as Hpos.
  assert (Hin : forall r, r < maxDist ->
                  pointerForce r = (maxDist - r) / maxDist).
  { intros r Hr. unfold pointerForce, force.
    destruct (Rlt_dec r maxDist); [reflexivity|contradiction]. }
  split; [apply mouseInteraction_pointerForce|].
  split; [reflexivity|].
  split.
  { intros Hd. unfold pointerForce.
    destruct (Rlt_dec d maxDist); [lra|reflexivity]. }
  split.
  { intros Hd. rewrite Hin by assumption. split; [reflexivity|].
    apply Rdiv_lt_0_compat; lra. }
  split.
  { intros Hlt Hd. rewrite !Hin by lra.
    unfold Rdiv. apply Rmult_lt_compat_r; [|lra].
    now apply Rinv_0_lt_compat. }
  rewrite Hin by assumption. field. lra.
Qed.

Lemma pointer_force_profile_witness :
  pointerForce 500 = 0 /\
  (pointerForce 100 = (maxDist - 100) / maxDist /\ 0 < pointerForce 100) /\
  pointerForce 100 < pointerForce 50.
Proof.
  assert (H400 : maxDist = 400) by reflexivity.
  split.
  { destruct (pointer_force_profile (Mouse.mk 0 0 0 0) (stillParticle 80)
                                    500 0) as (_ & _ & Hfar & _).
    apply Hfar. rewrite H400. lra. }
  destruct (pointer_force_profile (Mouse.mk 0 0 0 0) (stillParticle 80)
                                  100 50)
    as (_ & _ & _ & Hnear & Hmono & _).
  split.
  - apply Hnear. rewrite H400. lra.
  - apply Hmono; [lra | rewrite H400; lra].
Defined.

(** ** Pointer smoothing *)

Lemma settle_succ k raw n s0 :
  settle k raw (S n) s0 = follow k (settle k raw n s0) raw.
Proof. reflexivity. Qed.

(** The gap to the target shrinks by the factor [1 - k] per update. *)
Lemma settle_gap k raw n s0 :
  settle k raw n s0 - raw = (1 - k) ^ n * (s0 - raw).
Proof.
  induction n as [|n IH].
  - simpl. ring.
  - rewrite settle_succ. unfold follow.
    replace (settle k raw n s0 + (raw - settle k raw n s0) * k - raw)
      with ((1 - k) * (settle k raw n s0 - raw)) by ring.
    rewrite IH. simpl. ring.
Qed.

(** C5. With a smoothing constant [k] strictly between 0 and 1 and a
    fixed raw target, the smoothed value stays on the side of the target
    where it started after any number of updates (the sign of
    [raw - smoothed] does not flip), and when it starts away from the
    target it is never equal to it. *)
Theorem smoothing_never_overshoots (k raw s0 : R) (n : nat) :
  0 < k < 1 ->
  (s0 < raw -> settle k raw n s0 < raw) /\
  (raw < s0 -> raw < settle k raw n s0) /\
  (s0 <> raw -> settle k raw n s0 <> raw).
Proof.
  intros Hk.
  assert (Hpow : 0 < (1 - k) ^ n) by (apply pow_lt; lra).
  pose proof (settle_gap k raw n s0) as Hgap.
  repeat split.
  - intros Hlt. assert ((1 - k) ^ n * (s0 - raw) < 0) by nra. lra.
  - intros Hlt. assert (0 < (1 - k) ^ n * (s0 - raw)) by nra. lra.
  - intros Hne Heq.
    assert (Hz : (1 - k) ^ n * (s0 - raw) = 0) by lra.
    apply Rmult_integral in Hz. destruct Hz; lra.
Qed.

Lemma smoothing_never_overshoots_witness :
  0 < smoothing < 1 /\
  settle smoothing 1000 3 0 < 1000 /\
  1000 < settle smoothing 1000 3 2000 /\
  settle smoothing 1000 3 0 <> 1000.
Proof.
  assert (Hk : 0 < smoothing < 1) by (unfold smoothing; lra).
  split; [exact Hk|].
  destruct (smoothing_never_overshoots smoothing 1000 0 3 Hk)
    as (Hbelow & _ & Hne).
  destruct (smoothing_never_overshoots smoothing 1000 2000 3 Hk)
    as (_ & Habove & _).
  split; [apply Hbelow; lra|].
  split; [apply Habove; lra|].
  apply Hne; lra.
Defined.


Lemma tick_mouse img e :
  isRunning e = true -> mouse (tick img e) = followMouse (mouse e).
Proof.
  intros Hrun. unfold tick. now rewrite animate_running.
Qed.







(** Powers of 19/20, compared through integer arithmetic. *)
Lemma decay_as_integers n :
  (19 / 20) ^ n = IZR (19 ^ Z.of_nat n) / IZR (20 ^ Z.of_nat n).
Proof.
  unfold Rdiv at 1. rewrite Rpow_mult_distr, pow_inv, !pow_IZR.
  reflexivity.
Qed.


Lemma ratio_lt (a b c : Z) :
  (0 < b)%Z -> (0 < c)%Z -> (b < a * c)%Z -> 1 / IZR c < IZR a / IZR b.
Proof.
  intros Hb Hc Hlt.
  apply IZR_lt in Hb, Hc, Hlt. rewrite mult_IZR in Hlt.
  apply Rmult_lt_reg_r with (IZR b * IZR c); [nra|].
  field_simplify; lra.
Qed.



(** 270 is the first tick count at which the factor is below 1e-6. *)
Lemma decay_269 : 1 / 1000000 < (19 / 20) ^ 269.
Proof.
  rewrite decay_as_integers.
  apply (ratio_lt _ _ 1000000); now vm_compute.
Qed.






(** ** The one-particle scenario *)

Lemma sqrt_5000_bounds : 70 < sqrt 5000 < 71.
Proof.
  assert (H70 : sqrt (70 * 70) = 70) by (apply sqrt_square; lra).
  assert (H71 : sqrt (71 * 71) = 71) by (apply sqrt_square; lra).
  assert (Hlo : sqrt (70 * 70) < sqrt 5000) by (apply sqrt_lt_1_alt; lra).
  assert (Hhi : sqrt 5000 < sqrt (71 * 71)) by (apply sqrt_lt_1_alt; lra).
  lra.
Qed.

Lemma scenarioPush_bounds : 8 / 10 < scenarioPush < 9 / 10.
Proof.
  pose proof sqrt_5000_bounds as Hs.
  unfold scenarioPush, force, maxDist. lra.
Qed.

(** One tick after the target (1000,1000) arrived, the smoothed pointer is
    at (50,50), the particle at the origin is within reach, and the mouse
    interaction moves it by [scenarioPush] along each axis, away from the
    pointer; the wrap step leaves it alone. *)
Lemma scenario_tick (s : R) (img : ImageData) :
  1 <= s ->
  particles (tick img (setTarget 1000 1000 (scenario s))) =
    [setPosition (- scenarioPush) (- scenarioPush) (stillParticle s)].
Proof.
  intros Hs. pose proof scenarioPush_bounds as Hpush.
  pose proof sqrt_5000_bounds as Hsqrt.
  unfold tick. rewrite animate_running by reflexivity. simpl.
  f_equal.
  assert (Hm : followMouse (Mouse.mk 0 0 1000 1000) =
               Mouse.mk 50 50 1000 1000).
  { unfold followMouse, follow, smoothing; simpl. f_equal; lra. }
  assert (Hd : drift (stillParticle s) = stillParticle s).
  { unfold drift, stillParticle, setPosition; simpl. f_equal; lra. }
  rewrite Hm. unfold moveParticle. rewrite Hd.
  assert (Hi : mouseInteraction (Mouse.mk 50 50 1000 1000) (stillParticle s)
               = setPosition (- scenarioPush) (- scenarioPush)
                             (stillParticle s)).
  { unfold mouseInteraction; simpl.
    replace ((50 - 0) * (50 - 0) + (50 - 0) * (50 - 0)) with 5000 by lra.
    destruct (Rlt_dec (sqrt 5000) maxDist) as [_|Hfar];
      [|unfold maxDist in Hfar; lra].
    fold scenarioPush. unfold gain, setPosition; simpl. f_equal; lra. }
  rewrite Hi. unfold keepInBounds, setPosition; simpl.
  assert (H200 : INR 200 = 200) by (rewrite INR_IZR_INZ; reflexivity).
  rewrite !wrap_inside by (rewrite ?H200; lra).
  reflexivity.
Qed.

(** C1, as stated, fails: for a particle of the smallest size creation
    gives, both coordinates are negative after the tick, so both deltas
    from (0,0) are negative, not positive. *)
Lemma scenario_moves_toward_counterexample :
  exists p',
    particles (tick [] (setTarget 1000 1000 (scenario 80))) = [p'] /\
    Particle.x p' - 0 < 0 /\ Particle.y p' - 0 < 0.
Proof.
  pose proof scenarioPush_bounds as Hpush.
  eexists. split; [apply scenario_tick; lra|].
  simpl. lra.
Qed.

(** C1, amended. In the scenario, for a particle of size at least 1, one
    tick takes the smoothed pointer to (50,50) and moves the particle
    strictly away from it: both deltas are the same strictly negative
    number, [-(400 - sqrt 5000) / 400], and the wrap step changes
    nothing. *)
Theorem scenario_moves_away (s : R) (img : ImageData) :
  1 <= s ->
  exists p',
    particles (tick img (setTarget 1000 1000 (scenario s))) = [p'] /\
    Mouse.x (mouse (tick img (setTarget 1000 1000 (scenario s)))) = 50 /\
    Mouse.y (mouse (tick img (setTarget 1000 1000 (scenario s)))) = 50 /\
    Particle.x p' - 0 = - ((400 - sqrt 5000) / 400) /\
    Particle.y p' - 0 = - ((400 - sqrt 5000) / 400) /\
    Particle.x p' - 0 < 0 /\ Particle.y p' - 0 < 0 /\
    p' = mouseInteraction
           (mouse (tick img (setTarget 1000 1000 (scenario s))))
           (drift (stillParticle s)).
Proof.
  intros Hs. pose proof scenarioPush_bounds as Hpush.
  eexists. split; [now apply scenario_tick|].
  rewrite tick_mouse by reflexivity.
  assert (Hm : followMouse (mouse (setTarget 1000 1000 (scenario s))) =
               Mouse.mk 50 50 1000 1000).
  { unfold followMouse, follow, smoothing; simpl. f_equal; lra. }
  rewrite Hm. simpl.
  repeat split; try lra; try (unfold scenarioPush, force, maxDist; lra).
  assert (Hd : drift (stillParticle s) = stillParticle s).
  { unfold drift, stillParticle, setPosition; simpl. f_equal; lra. }
  rewrite Hd. unfold mouseInteraction; simpl.
  replace ((50 - 0) * (50 - 0) + (50 - 0) * (50 - 0)) with 5000 by lra.
  pose proof sqrt_5000_bounds as Hsqrt.
  destruct (Rlt_dec (sqrt 5000) maxDist) as [_|Hfar];
    [|unfold maxDist in Hfar; lra].
  fold scenarioPush. unfold gain, setPosition; simpl. f_equal; lra.
Qed.

Lemma scenario_moves_away_witness :
  1 <= 80 /\
  exists p',
    particles (tick [] (setTarget 1000 1000 (scenario 80))) = [p'] /\
    Particle.x p' - 0 < 0 /\ Particle.y p' - 0 < 0.
Proof.
  assert (H : 1 <= 80) by lra.
  split; [exact H|].
  destruct (scenario_moves_away 80 [] H)
    as (p' & Hps & _ & _ & _ & _ & Hx & Hy & _).
  exists p'. auto.
Defined.

(** ** Rendered positions *)

Lemma amplitude_moveParticle w h m p :
  Particle.amplitude (moveParticle w h m p) = Particle.amplitude p.
Proof.
  unfold moveParticle, keepInBounds, mouseInteraction; simpl.
  destruct (Rlt_dec _ maxDist); reflexivity.
Qed.

Lemma oscillateX_bound t p :
  0 <= Particle.amplitude p ->
  - Particle.amplitude p <= oscillateX t p <= Particle.amplitude p.
Proof.
  intros Ha. unfold oscillateX.
  pose proof (SIN_bound (t + Particle.phase p)). nra.
Qed.

Lemma oscillateY_bound t p :
  0 <= Particle.amplitude p ->
  - Particle.amplitude p <= oscillateY t p <= Particle.amplitude p.
Proof.
  intros Ha. unfold oscillateY.
  pose proof (COS_bound (t * (8 / 10) + Particle.phase p)). nra.
Qed.

Lemma tick_time img e :
  isRunning e = true -> time (tick img e) = time e + timeStep.
Proof.
  intros Hrun. unfold tick. now rewrite animate_running.
Qed.

(** What a tick paints: the fade, one glow per particle at its rendered
    position, and the grained pixel data. *)
Lemma animate_draws img e :
  isRunning e = true ->
  snd (animate img e) =
    FillRect fadeStyle 0 0 (INR (width e)) (INR (height e))
      :: map (glow (time (tick img e))) (particles (tick img e))
      ++ [PutImageData (snd (addNoise (random e) img))].
Proof.
  intros Hrun. unfold tick. now rewrite animate_running.
Qed.

(** The tick of [edgeEngine]: the pointer is out of reach, the drift
    takes the particle below [-size], and the wrap puts it on the
    opposite edge, at [height + size]. *)
Lemma edge_tick :
  particles (tick [] edgeEngine) = [setPosition 500 1080 edgeParticle].
Proof.
  unfold tick. rewrite animate_running by reflexivity. simpl.
  f_equal.
  assert (Hm : followMouse (Mouse.mk 0 0 0 0) = Mouse.mk 0 0 0 0).
  { unfold followMouse, follow; simpl. f_equal; lra. }
  assert (Hd : drift edgeParticle =
               setPosition 500 (- (801 / 10)) edgeParticle).
  { unfold drift, edgeParticle, setPosition; simpl. f_equal; lra. }
  rewrite Hm. unfold moveParticle. rewrite Hd.
  assert (Hi : mouseInteraction (Mouse.mk 0 0 0 0)
                 (setPosition 500 (- (801 / 10)) edgeParticle)
               = setPosition 500 (- (801 / 10)) edgeParticle).
  { unfold mouseInteraction; simpl.
    destruct (Rlt_dec _ maxDist) as [Hnear|_]; [|reflexivity].
    exfalso. unfold maxDist in Hnear.
    assert (H400 : sqrt (400 * 400) = 400) by (apply sqrt_square; lra).
    assert (Hle : sqrt (400 * 400) <=
                  sqrt ((0 - 500) * (0 - 500) +
                        (0 - - (801 / 10)) * (0 - - (801 / 10)))).
    { apply sqrt_le_1_alt. lra. }
    lra. }
  rewrite Hi. unfold keepInBounds, setPosition; simpl.
  assert (H1000 : INR 1000 = 1000) by (rewrite INR_IZR_INZ; reflexivity).
  rewrite wrap_inside by (rewrite ?H1000; lra).
  rewrite wrap_below by lra.
  rewrite H1000. f_equal; lra.
Qed.

(** C2, as stated, fails: [edgeEngine] holds one particle inside the
    wrap box; the tick wraps it to the edge [height + size], and the glow
    painted in that tick is centred beyond that edge. *)
Lemma rendered_in_box_counterexample :
  inBox 1000 1000 edgeParticle /\
  exists p',
    particles (tick [] edgeEngine) = [p'] /\
    In (Glow (renderedX (time (tick [] edgeEngine)) p')
             (renderedY (time (tick [] edgeEngine)) p')
             (Particle.size p') (Particle.color p'))
       (snd (animate [] edgeEngine)) /\
    renderedY (time (tick [] edgeEngine)) p' >
      INR (height edgeEngine) + Particle.size p'.
Proof.
  assert (H1000 : INR 1000 = 1000) by (rewrite INR_IZR_INZ; reflexivity).
  split.
  { unfold inBox; simpl. rewrite H1000. lra. }
  eexists. split; [apply edge_tick|].
  split.
  { rewrite animate_draws, edge_tick by reflexivity.
    right. left. reflexivity. }
  rewrite tick_time by reflexivity.
  unfold renderedY, oscillateY; simpl. rewrite H1000.
  assert (Hcos : 0 < cos ((0 + timeStep) * (8 / 10) + 0)).
  { pose proof PI2_3_2. apply cos_gt_0; unfold timeStep; lra. }
  lra.
Qed.

(** C2, amended. In every tick, every particle is painted, and the
    centre of its glow (stored position plus oscillation offset) lies
    within [-size - amplitude, width + size + amplitude] on the x axis and
    [-size - amplitude, height + size + amplitude] on the y axis: the
    stored position is inside the wrap box and the oscillation adds at
    most the amplitude. Sizes and amplitudes are not negative. *)
Theorem rendered_within_margin (img : ImageData) (e : LiquidBackground)
    (p' : Particle.t) :
  isRunning e = true ->
  (forall p, In p (particles e) ->
             0 <= Particle.size p /\ 0 <= Particle.amplitude p) ->
  In p' (particles (tick img e)) ->
  let t := time (tick img e) in
  In (Glow (renderedX t p') (renderedY t p') (Particle.size p')
           (Particle.color p'))
     (snd (animate img e)) /\
  - Particle.size p' - Particle.amplitude p' <= renderedX t p'
    <= INR (width e) + Particle.size p' + Particle.amplitude p' /\
  - Particle.size p' - Particle.amplitude p' <= renderedY t p'
    <= INR (height e) + Particle.size p' + Particle.amplitude p'.
Proof.
  intros Hrun Hpos Hin t. subst t.
  split.
  { rewrite animate_draws by assumption.
    right. apply in_or_app. left.
    apply (in_map (glow (time (tick img e)))) in Hin. exact Hin. }
  rewrite tick_time by assumption.
  unfold tick in Hin. rewrite animate_running in Hin by assumption.
  simpl in Hin. apply in_map_iff in Hin. destruct Hin as (p & <- & Hp).
  destruct (Hpos p Hp) as [Hs Ha].
  pose proof (moveParticle_inBox (width e) (height e)
                (followMouse (mouse e)) p Hs) as [Hx Hy].
  set (q := moveParticle (width e) (height e) (followMouse (mouse e)) p)
    in *.
  assert (Haq : 0 <= Particle.amplitude q).
  { unfold q. now rewrite amplitude_moveParticle. }
  pose proof (oscillateX_bound (time e + timeStep) q Haq).
  pose proof (oscillateY_bound (time e + timeStep) q Haq).
  unfold renderedX, renderedY. lra.
Qed.

Lemma rendered_within_margin_witness :
  isRunning edgeEngine = true /\
  (forall p, In p (particles edgeEngine) ->
             0 <= Particle.size p /\ 0 <= Particle.amplitude p) /\
  In (setPosition 500 1080 edgeParticle) (particles (tick [] edgeEngine)) /\
  - 80 - 30 <= renderedY (time (tick [] edgeEngine))
                         (setPosition 500 1080 edgeParticle)
    <= INR 1000 + 80 + 30.
Proof.
  assert (Hpos : forall p, In p (particles edgeEngine) ->
                   0 <= Particle.size p /\ 0 <= Particle.amplitude p).
  { intros p [<-|[]]. simpl. lra. }
  assert (Hin : In (setPosition 500 1080 edgeParticle)
                   (particles (tick [] edgeEngine))).
  { rewrite edge_tick. now left. }
  split; [reflexivity|].
  split; [exact Hpos|].
  split; [exact Hin|].
  destruct (rendered_within_margin [] edgeEngine
              (setPosition 500 1080 edgeParticle) eq_refl Hpos Hin)
    as (_ & _ & Hy).
  exact Hy.
Defined.

(** ** Particle count *)

Lemma pushParticles_length count w h cols g acc :
  List.length (fst (pushParticles count w h cols g acc)) =
    (List.length acc + count)%nat.
Proof.
  revert g acc. induction count as [|count IH]; intros g acc; simpl.
  - lia.
  - rewrite IH, length_app. simpl. lia.
Qed.

Lemma createParticles_fullField e :
  particleCount e = 80%nat -> fullField (createParticles e).
Proof.
  intros Hc. unfold fullField, createParticles; simpl.
  rewrite pushParticles_length, Hc. auto.
Qed.

Lemma animate_fullField img e :
  fullField e -> fullField (fst (animate img e)).
Proof.
  intros [Hc Hl]. unfold animate.
  destruct (isRunning e); simpl; [|now split].
  split; simpl; [assumption|]. now rewrite length_map.
Qed.

Lemma handle_fullField ev e :
  fullField e -> fullField (fst (handle ev e)).
Proof.
  intros Hf. destruct ev as [x y|touches|c|hidden img|img]; simpl.
  - exact Hf.
  - destruct touches as [|[x y] rest]; exact Hf.
  - apply createParticles_fullField. apply Hf.
  - destruct (negb hidden); [|exact Hf].
    apply animate_fullField. exact Hf.
  - destruct (scheduled e); [exact Hf|].
    apply animate_fullField. exact Hf.
Qed.

Lemma run_fullField evs e : fullField e -> fullField (run evs e).
Proof.
  revert e. induction evs as [|ev evs IH]; intros e Hf; simpl; auto.
  apply IH. now apply handle_fullField.
Qed.

(** C7. Construction yields exactly [particleCount] = 80 particles; the
    count is 80 after any sequence of ticks and other events; and a
    resize puts in their place exactly 80 particles built from the empty
    list out of fresh draws and the new dimensions, the same whatever
    particles were held before. *)
Theorem particle_count_constant (c c' : Container) (g : Random)
    (img : ImageData) (evs : list Event) (ps : list Particle.t) :
  exists e0,
    construct (Some c) g img = inr e0 /\
    particleCount e0 = 80%nat /\
    List.length (particles e0) = 80%nat /\
    List.length (particles (run evs e0)) = 80%nat /\
    (let resized := fst (handle (WindowResize c') (run evs e0)) in
     List.length (particles resized) = 80%nat /\
     particles resized =
       fst (pushParticles 80 (offsetWidth c') (offsetHeight c') palette
                          (random (run evs e0)) []) /\
     particles resized =
       particles (fst (handle (WindowResize c')
                              (setParticles ps (run evs e0))))).
Proof.
  eexists. split; [reflexivity|].
  set (e0 := fst (animate img _)).
  assert (H0 : fullField e0).
  { apply animate_fullField. now apply createParticles_fullField. }
  pose proof (run_fullField evs e0 H0) as Hrun.
  assert (Hcols : forall evs' e, colors e = palette ->
                    colors (run evs' e) = palette).
  { induction evs' as [|ev evs' IH]; intros e He; simpl; auto.
    apply IH. destruct ev as [x y|touches|k|hidden i|i]; simpl; auto.
    - destruct touches as [|[x y] rest]; auto.
    - unfold animate; simpl. destruct (negb hidden); auto.
    - destruct (scheduled e); auto.
      unfold animate; simpl. destruct (negb (isRunning e)); auto. }
  assert (Hpal : colors (run evs e0) = palette).
  { apply Hcols. unfold e0, animate; simpl. reflexivity. }
  destruct H0 as [Hc0 Hl0]. destruct Hrun as [Hc Hl].
  split; [exact Hc0|]. split; [exact Hl0|]. split; [exact Hl|].
  simpl. rewrite pushParticles_length, Hc, Hpal.
  repeat split; reflexivity.
Qed.

(** ** Pause and resume *)

Lemma sameMotion_refl e : sameMotion e e.
Proof. repeat split. Qed.

Lemma sameMotion_trans e1 e2 e3 :
  sameMotion e1 e2 -> sameMotion e2 e3 -> sameMotion e1 e3.
Proof.
  unfold sameMotion. intros (Hp & Ht & Hx & Hy) (Hp' & Ht' & Hx' & Hy').
  repeat split; congruence.
Qed.

(** A paused engine handles an event that keeps it paused without
    running the tick body: nothing moves and nothing is painted. *)
Lemma handle_paused ev e :
  isRunning e = false -> keepsPaused ev = true ->
  isRunning (fst (handle ev e)) = false /\
  sameMotion e (fst (handle ev e)) /\
  snd (handle ev e) = [].
Proof.
  intros Hrun Hev.
  destruct ev as [x y|touches|c|hidden img|img]; simpl in *.
  - repeat split; assumption.
  - destruct touches as [|[x y] rest]; repeat split; assumption.
  - discriminate.
  - subst hidden. simpl. repeat split.
  - destruct (scheduled e) as [|n]; [repeat split; assumption|].
    rewrite animate_paused by assumption. repeat split; assumption.
Qed.

Lemma run_paused evs e :
  isRunning e = false -> forallb keepsPaused evs = true ->
  isRunning (run evs e) = false /\
  sameMotion e (run evs e) /\
  painted evs e = [].
Proof.
  revert e. induction evs as [|ev evs IH]; intros e Hrun Hevs; simpl.
  - auto using sameMotion_refl.
  - simpl in Hevs. apply andb_prop in Hevs. destruct Hevs as [Hev Hevs].
    destruct (handle_paused ev e Hrun Hev) as (Hrun' & Hsame & Hdraw).
    destruct (IH _ Hrun' Hevs) as (Hrun'' & Hsame' & Hdraw').
    rewrite Hdraw, Hdraw'. repeat split; auto.
    all: destruct Hsame as (Hp & Ht & Hx & Hy);
         destruct Hsame' as (Hp' & Ht' & Hx' & Hy'); congruence.
Qed.

(** C8, as stated, fails: a resize that arrives while the engine is
    paused, with no return of visibility, recreates the particles. *)
Lemma paused_resize_counterexample :
  let paused := fst (handle (VisibilityChange true []) (scenario 80)) in
  let resized :=
    fst (handle (WindowResize (Build_Container 200 200)) paused) in
  isRunning paused = false /\
  isRunning resized = false /\
  particles paused = [stillParticle 80] /\
  particles resized <> particles paused.
Proof.
  simpl. repeat split. intros Heq.
  apply (f_equal (fun ps => match ps with
                            | p :: _ => Particle.x p
                            | [] => 0
                            end)) in Heq.
  simpl in Heq.
  assert (H200 : INR 200 = 200) by (rewrite INR_IZR_INZ; reflexivity).
  rewrite H200 in Heq. lra.
Qed.

(** C8, amended. Once a visibility-lost notification has paused the
    engine, then as long as the events that follow include neither a
    visibility-restored notification nor a resize, the engine stays
    paused, no tick body runs (the clock does not advance and nothing is
    painted), and the particles and the smoothed pointer are exactly what
    they were. *)
Theorem paused_engine_is_still (e0 : LiquidBackground) (img : ImageData)
    (evs : list Event) :
  forallb keepsPaused evs = true ->
  let paused := fst (handle (VisibilityChange true img) e0) in
  isRunning paused = false /\
  isRunning (run evs paused) = false /\
  sameMotion e0 (run evs paused) /\
  snd (handle (VisibilityChange true img) e0) ++ painted evs paused = [].
Proof.
  intros Hevs paused.
  assert (Hrun : isRunning paused = false) by reflexivity.
  destruct (run_paused evs paused Hrun Hevs) as (Hrun' & Hsame & Hdraw).
  repeat split; try assumption; try apply Hsame.
Qed.

Lemma paused_engine_is_still_witness :
  forallb keepsPaused
          [AnimationFrame []; MouseMove 1000 1000; AnimationFrame [];
           VisibilityChange true []] = true /\
  sameMotion (scenario 80)
    (run [AnimationFrame []; MouseMove 1000 1000; AnimationFrame [];
          VisibilityChange true []]
         (fst (handle (VisibilityChange true []) (scenario 80)))).
Proof.
  split; [reflexivity|].
  destruct (paused_engine_is_still (scenario 80) []
              [AnimationFrame []; MouseMove 1000 1000; AnimationFrame [];
               VisibilityChange true []] eq_refl)
    as (_ & _ & Hsame & _).
  exact Hsame.
Defined.

(** ** Mounting *)

(** C10. When the page has no mount container the listener constructs
    nothing and raises nothing; the guard is what makes it so, since the
    constructor itself throws on a missing container; and with a
    container present the engine is built. *)
Theorem absent_container_is_skipped (g : Random) (img : ImageData)
    (c : Container) :
  onDOMContentLoaded None g img = inr None /\
  (exists ex, construct None g img = inl ex) /\
  (exists e, onDOMContentLoaded (Some c) g img = inr (Some e)).
Proof.
  split; [reflexivity|].
  split; eexists; reflexivity.
Qed.

(** ** Grain overlay *)

Lemma floor_bounds v : IZR (floor v) <= v < IZR (floor v) + 1.
Proof.
  unfold floor. rewrite minus_IZR.
  destruct (archimed v) as [Hup Hlow]. lra.
Qed.

Lemma toUint8Clamp_inByte v : inByte (toUint8Clamp v).
Proof.
  unfold toUint8Clamp, inByte.
  destruct (Rle_dec v 0) as [_|Hpos]; [lia|].
  destruct (Rle_dec 255 v) as [_|Htop]; [lia|].
  pose proof (floor_bounds v) as [Hlo Hhi].
  assert (Hf0 : (0 <= floor v)%Z).
  { apply Z.lt_succ_r. apply lt_IZR. rewrite succ_IZR. lra. }
  assert (Hf1 : (floor v < 255)%Z) by (apply lt_IZR; lra).
  destruct (Rlt_dec (IZR (floor v) + 1 / 2) v); [lia|].
  destruct (Rlt_dec v (IZR (floor v) + 1 / 2)); [lia|].
  destruct (Z.even (floor v)); lia.
Qed.

Lemma setChannel_length i v data :
  List.length (setChannel i v data) = List.length data.
Proof.
  revert i; induction data as [|c rest IH]; intros [|i]; simpl; auto.
Qed.

Lemma setChannel_other i v data k :
  k <> i -> nth k (setChannel i v data) 0%Z = nth k data 0%Z.
Proof.
  revert i k; induction data as [|c rest IH]; intros [|i] [|k] Hne;
    simpl; auto; try contradiction.
Qed.

Lemma setChannel_inByte i v data :
  Forall inByte data -> Forall inByte (setChannel i v data).
Proof.
  intros Hall; revert i.
  induction Hall as [|c rest Hc Hrest IH]; intros [|i]; simpl;
    constructor; auto using toUint8Clamp_inByte.
Qed.

Lemma grain_length i st :
  List.length (snd (grain i st)) = List.length (snd st).
Proof.
  unfold grain; simpl. now rewrite !setChannel_length.
Qed.

Lemma grain_inByte i st :
  Forall inByte (snd st) -> Forall inByte (snd (grain i st)).
Proof.
  intros Hall. unfold grain; simpl. auto using setChannel_inByte.
Qed.

(** One pass of the loop body at a multiple of 16 leaves every channel
    whose index is 3 or more modulo 16 as it was. *)
Lemma grain_unsampled i st k :
  (i mod 16 = 0)%nat -> (3 <= k mod 16)%nat ->
  nth k (snd (grain i st)) 0%Z = nth k (snd st) 0%Z.
Proof.
  intros Hi Hk. unfold grain; simpl.
  assert (H0 : k <> i) by (intros ->; lia).
  assert (H1 : k <> (i + 1)%nat).
  { intros ->. rewrite Nat.Div0.add_mod, Hi in Hk. simpl in Hk. lia. }
  assert (H2 : k <> (i + 2)%nat).
  { intros ->. rewrite Nat.Div0.add_mod, Hi in Hk. simpl in Hk. lia. }
  now rewrite !setChannel_other.
Qed.

Lemma grainFrom_sound i st :
  (i mod 16 = 0)%nat ->
  List.length (snd (grainFrom i st)) = List.length (snd st) /\
  (Forall inByte (snd st) -> Forall inByte (snd (grainFrom i st))) /\
  (forall k, (3 <= k mod 16)%nat ->
             nth k (snd (grainFrom i st)) 0%Z = nth k (snd st) 0%Z).
Proof.
  funelim (grainFrom i st); intros Hi.
  - assert (Hi' : ((i + 16) mod 16 = 0)%nat).
    { rewrite Nat.Div0.add_mod, Hi. reflexivity. }
    match goal with
    | IH : _ -> _ /\ _ |- _ => destruct (IH Hi') as (Hlen & Hbyte & Hkeep)
    end.
    split; [now rewrite Hlen, grain_length|].
    split; [intros Hall; now apply Hbyte, grain_inByte|].
    intros k Hk. rewrite Hkeep by assumption.
    now apply grain_unsampled.
  - auto.
Qed.

(** C9. Grain applied to an all-zero pixel buffer of any length returns
    a buffer of that length in which every channel is within [0,255] and
    every channel outside the sampled indices 16j, 16j+1, 16j+2 is still
    exactly 0. *)
Theorem grain_on_black (g : Random) (n k : nat) :
  let out := snd (addNoise g (repeat 0%Z n)) in
  List.length out = n /\
  Forall inByte out /\
  ((k < n)%nat -> (3 <= k mod 16)%nat -> nth_error out k = Some 0%Z).
Proof.
  intros out. subst out. unfold addNoise.
  destruct (grainFrom_sound 0 (g, repeat 0%Z n) eq_refl)
    as (Hlen & Hbyte & Hkeep).
  cbn [fst snd] in Hlen, Hbyte, Hkeep. rewrite repeat_length in Hlen.
  split; [exact Hlen|].
  split.
  { apply Hbyte. apply Forall_forall. intros c Hc.
    apply repeat_spec in Hc. subst c. unfold inByte. lia. }
  intros Hlt Hk.
  rewrite (nth_error_nth' _ 0%Z).
  2:{ apply Nat.lt_le_trans with n; [exact Hlt|].
      apply Nat.eq_le_incl. symmetry. exact Hlen. }
  rewrite Hkeep by assumption. now rewrite nth_repeat.
Qed.

Lemma grain_on_black_witness :
  (5 < 40)%nat /\ (3 <= 5 mod 16)%nat /\
  nth_error (snd (addNoise (fun _ => 1) (repeat 0%Z 40))) 5 = Some 0%Z.
Proof.
  assert (Hlt : (5 < 40)%nat) by lia.
  assert (Hk : (3 <= 5 mod 16)%nat) by (simpl; lia).
  split; [exact Hlt|]. split; [exact Hk|].
  destruct (grain_on_black (fun _ => 1) 40 5) as (_ & _ & Hkeep).
  exact (Hkeep Hlt Hk).
Defined.

(** ** Engine states that arise *)

Lemma floor_bounds_Z v (lo hi : Z) :
  IZR lo <= v < IZR hi -> (lo <= floor v < hi)%Z.
Proof.
  intros [Hlo Hhi]. pose proof (floor_bounds v) as [Hf Hf'].
  split.
  - apply Z.lt_succ_r. apply lt_IZR. rewrite succ_IZR. lra.
  - apply lt_IZR. lra.
Qed.

Lemma unitRange_skip k g : unitRange g -> unitRange (skip k g).
Proof. intros Hg n. apply Hg. Qed.

(** With [Math.random] in [0,1) a new particle has a size in [80,230),
    an amplitude in [30,80) and one of the five palette colours. *)
Lemma newParticle_asCreated w h g :
  unitRange g -> asCreated (newParticle w h palette g).
Proof.
  intros Hg. unfold asCreated, newParticle; simpl.
  pose proof (Hg 4%nat). pose proof (Hg 9%nat). pose proof (Hg 7%nat).
  split; [lra|]. split; [lra|].
  assert (H5 : INR 5 = 5) by (rewrite INR_IZR_INZ; reflexivity).
  rewrite H5.
  assert (Hidx : (0 <= floor (g 7%nat * 5) < 5)%Z).
  { apply floor_bounds_Z. lra. }
  unfold elementAt.
  destruct (Z.ltb_spec (floor (g 7%nat * 5)) 0); [lia|].
  assert (Hnat : (Z.to_nat (floor (g 7%nat * 5)) < 5)%nat) by lia.
  destruct (Z.to_nat (floor (g 7%nat * 5))) as [|[|[|[|[|n]]]]];
    simpl; auto 10. lia.
Qed.

Lemma pushParticles_sound count w h g acc :
  unitRange g -> Forall asCreated acc ->
  Forall asCreated (fst (pushParticles count w h palette g acc)) /\
  unitRange (snd (pushParticles count w h palette g acc)).
Proof.
  revert g acc. induction count as [|count IH]; intros g acc Hg Hacc;
    simpl; [auto|].
  apply IH; [now apply unitRange_skip|].
  apply Forall_app. split; [assumption|].
  constructor; [now apply newParticle_asCreated|constructor].
Qed.

Lemma grainFrom_unitRange i st :
  unitRange (fst st) -> unitRange (fst (grainFrom i st)).
Proof.
  funelim (grainFrom i st); intros Hg; [|assumption].
  match goal with IH : _ -> unitRange _ |- _ => apply IH end.
  unfold grain; simpl. now apply unitRange_skip.
Qed.

Lemma moveParticle_asCreated w h m p :
  asCreated p -> asCreated (moveParticle w h m p).
Proof.
  unfold asCreated, moveParticle, keepInBounds, mouseInteraction; simpl.
  destruct (Rlt_dec _ maxDist); simpl; auto.
Qed.

Lemma createParticles_sound e :
  colors e = palette -> unitRange (random e) -> sound (createParticles e).
Proof.
  intros Hc Hg. unfold sound, createParticles; simpl. rewrite Hc.
  split; [reflexivity|].
  destruct (pushParticles_sound (particleCount e) (width e) (height e)
              (random e) [] Hg (Forall_nil _)); auto.
Qed.

Lemma animate_sound img e : sound e -> sound (fst (animate img e)).
Proof.
  intros (Hc & Hg & Hps). unfold animate.
  destruct (isRunning e); simpl; [|unfold sound; auto].
  split; [assumption|]. split; simpl.
  - unfold addNoise.
    now apply (grainFrom_unitRange 0 (random e, img)).
  - apply Forall_map. revert Hps. apply Forall_impl.
    intros p. apply moveParticle_asCreated.
Qed.

Lemma handle_sound ev e : sound e -> sound (fst (handle ev e)).
Proof.
  intros Hs. destruct ev as [x y|touches|c|hidden img|img]; simpl.
  - exact Hs.
  - destruct touches as [|[x y] rest]; exact Hs.
  - destruct Hs as (Hc & Hg & _). now apply createParticles_sound.
  - destruct (negb hidden); [|exact Hs].
    apply animate_sound. exact Hs.
  - destruct (scheduled e); [exact Hs|].
    apply animate_sound. exact Hs.
Qed.

Lemma run_preserves_sound evs e : sound e -> sound (run evs e).
Proof.
  revert e. induction evs as [|ev evs IH]; intros e He; simpl; auto.
  apply IH. now apply handle_sound.
Qed.

(** Every state the engine passes through, from construction on, holds
    particles with the created ranges. *)
Lemma run_sound c g img evs e0 :
  unitRange g -> construct (Some c) g img = inr e0 -> sound (run evs e0).
Proof.
  intros Hg Hnew.
  assert (He : e0 =
               fst (animate img
                      (init c (mkEngine 0 0 80 [] (Mouse.mk 0 0 0 0) 0 true
                                        palette g 0)))).
  { unfold construct in Hnew. congruence. }
  rewrite He. apply run_preserves_sound, animate_sound.
  now apply createParticles_sound.
Qed.

(** Hence, in every tick of an engine that arose this way, the stored
    positions end inside the wrap box. *)
Lemma sound_tick_inBox img e :
  sound e -> isRunning e = true ->
  Forall (inBox (width e) (height e)) (particles (tick img e)).
Proof.
  intros (_ & _ & Hps) Hrun. unfold tick.
  rewrite animate_running by assumption. simpl.
  apply Forall_map. revert Hps. apply Forall_impl.
  intros p (Hsize & _). apply moveParticle_inBox. lra.
Qed.

(** * Further properties of the engine *)

(** ** Pointer input *)

Lemma withTarget_absorb t cur e :
  withTarget (Some t) (withTarget cur e) = withTarget (Some t) e.
Proof.
  destruct t as [x y]. destruct cur as [[x' y']|]; reflexivity.
Qed.

Lemma handle_pointer ev e :
  isPointerEvent ev = true ->
  handle ev e = (withTarget (targetOf ev) e, []).
Proof.
  destruct ev as [x y|[|[x y] rest]|c|hidden img|img]; simpl;
    intros Hp; try discriminate; reflexivity.
Qed.

Lemma run_pointer_from evs cur e :
  forallb isPointerEvent evs = true ->
  run evs (withTarget cur e) = withTarget (lastTarget evs cur) e /\
  painted evs (withTarget cur e) = [].
Proof.
  revert cur. induction evs as [|ev evs IH]; intros cur Hevs; simpl.
  - auto.
  - simpl in Hevs. apply andb_prop in Hevs. destruct Hevs as [Hev Hevs].
    rewrite handle_pointer by assumption. simpl.
    destruct (targetOf ev) as [t|].
    + rewrite withTarget_absorb. now apply IH.
    + simpl. now apply IH.
Qed.

(** X1. A burst of pointer events (mouse moves and touch moves, in any
    number and order) leaves the engine exactly as its last effective
    event alone would: the raw target is the last point written, nothing
    else changes and nothing is painted. A touch move without touch
    points writes nothing. *)
Theorem pointer_burst_last_write_wins (evs : list Event)
    (e : LiquidBackground) :
  forallb isPointerEvent evs = true ->
  run evs e = withTarget (lastTarget evs None) e /\
  painted evs e = [].
Proof.
  intros Hevs. exact (run_pointer_from evs None e Hevs).
Qed.

Lemma pointer_burst_last_write_wins_witness :
  forallb isPointerEvent
          [MouseMove 3 4; TouchMove []; TouchMove [(7, 8); (1, 2)];
           TouchMove []] = true /\
  run [MouseMove 3 4; TouchMove []; TouchMove [(7, 8); (1, 2)];
       TouchMove []] (scenario 80) = setTarget 7 8 (scenario 80).
Proof.
  split; [reflexivity|].
  exact (proj1 (pointer_burst_last_write_wins
                  [MouseMove 3 4; TouchMove []; TouchMove [(7, 8); (1, 2)];
                   TouchMove []] (scenario 80) eq_refl)).
Defined.

Lemma follow_between k lo hi cur target :
  0 <= k <= 1 -> lo <= cur <= hi -> lo <= target <= hi ->
  lo <= follow k cur target <= hi.
Proof.
  intros Hk Hc Ht. unfold follow. split; nra.
Qed.

Lemma followMouse_within xlo xhi ylo yhi m :
  pointerWithin xlo xhi ylo yhi m ->
  pointerWithin xlo xhi ylo yhi (followMouse m).
Proof.
  intros [[Hx Htx] [Hy Hty]].
  assert (Hk : 0 <= smoothing <= 1) by (unfold smoothing; lra).
  pose proof (follow_between smoothing xlo xhi _ _ Hk Hx Htx).
  pose proof (follow_between smoothing ylo yhi _ _ Hk Hy Hty).
  unfold pointerWithin, followMouse; simpl. auto.
Qed.

Lemma animate_pointerWithin xlo xhi ylo yhi img e :
  pointerWithin xlo xhi ylo yhi (mouse e) ->
  pointerWithin xlo xhi ylo yhi (mouse (fst (animate img e))).
Proof.
  intros Hin. unfold animate.
  destruct (isRunning e); simpl; [|assumption].
  now apply followMouse_within.
Qed.

Lemma handle_pointerWithin xlo xhi ylo yhi ev e :
  pointerWithin xlo xhi ylo yhi (mouse e) ->
  (forall x y, targetOf ev = Some (x, y) ->
               xlo <= x <= xhi /\ ylo <= y <= yhi) ->
  pointerWithin xlo xhi ylo yhi (mouse (fst (handle ev e))).
Proof.
  intros Hin Hev.
  assert (Hset : forall x y, targetOf ev = Some (x, y) ->
            pointerWithin xlo xhi ylo yhi (mouse (setTarget x y e))).
  { intros x y Ht. destruct (Hev x y Ht) as [Hx Hy].
    destruct Hin as [[Hmx _] [Hmy _]].
    unfold pointerWithin; simpl. auto. }
  destruct ev as [x y|[|[x y] rest]|c|hidden img|img]; simpl.
  - now apply Hset.
  - assumption.
  - now apply Hset.
  - assumption.
  - destruct hidden; simpl; [assumption|].
    now apply followMouse_within.
  - destruct (scheduled e); [assumption|].
    now apply animate_pointerWithin.
Qed.

(** X2. The smoothed pointer never leaves the rectangle that holds it,
    its raw target and every target the pointer events write: over any
    sequence of events (ticks, resizes, pauses and resumes included) both
    the smoothed and the raw pointer stay inside. *)
Theorem smoothed_pointer_stays_within (xlo xhi ylo yhi : R)
    (evs : list Event) (e : LiquidBackground) :
  pointerWithin xlo xhi ylo yhi (mouse e) ->
  targetsWithin xlo xhi ylo yhi evs ->
  pointerWithin xlo xhi ylo yhi (mouse (run evs e)).
Proof.
  revert e. induction evs as [|ev evs IH]; intros e Hin Hevs; simpl.
  - assumption.
  - apply IH.
    + apply handle_pointerWithin; [assumption|].
      intros x y Ht. apply (Hevs ev x y); [now left|assumption].
    + intros ev' x y Hi Ht. apply (Hevs ev' x y); [now right|assumption].
Qed.

Lemma smoothed_pointer_stays_within_witness :
  pointerWithin 0 1000 0 1000 (mouse (scenario 80)) /\
  targetsWithin 0 1000 0 1000
    [MouseMove 1000 1000; AnimationFrame []; TouchMove [(5, 6)];
     AnimationFrame []] /\
  pointerWithin 0 1000 0 1000
    (mouse (run [MouseMove 1000 1000; AnimationFrame []; TouchMove [(5, 6)];
                 AnimationFrame []] (scenario 80))).
Proof.
  assert (Hin : pointerWithin 0 1000 0 1000 (mouse (scenario 80))).
  { unfold pointerWithin; simpl. lra. }
  assert (Hevs : targetsWithin 0 1000 0 1000
            [MouseMove 1000 1000; AnimationFrame []; TouchMove [(5, 6)];
             AnimationFrame []]).
  { intros ev x y [<-|[<-|[<-|[<-|[]]]]] Ht; simpl in Ht;
      try discriminate; injection Ht as <- <-; lra. }
  split; [exact Hin|]. split; [exact Hevs|].
  exact (smoothed_pointer_stays_within 0 1000 0 1000 _ _ Hin Hevs).
Defined.

(** ** The animation loop *)

Lemma fades_app ds ds' : fades (ds ++ ds') = (fades ds + fades ds')%nat.
Proof.
  induction ds as [|[style x y w h|cx cy r c|data] ds IH]; simpl; auto.
Qed.

Lemma fades_glows t ps : fades (map (glow t) ps) = 0%nat.
Proof. induction ps as [|p ps IH]; simpl; auto. Qed.

Lemma animate_clock img e :
  time (fst (animate img e)) =
    time e + INR (fades (snd (animate img e))) * timeStep.
Proof.
  unfold animate. destruct (isRunning e); simpl.
  - rewrite fades_app, fades_glows. simpl.
    change (INR 1) with 1. lra.
  - change (INR 0) with 0. lra.
Qed.

Lemma handle_clock ev e :
  time (fst (handle ev e)) =
    time e + INR (fades (snd (handle ev e))) * timeStep.
Proof.
  destruct ev as [x y|[|[x y] rest]|c|hidden img|img]; simpl;
    change (INR 0) with 0; try lra.
  - destruct hidden; simpl; change (INR 0) with 0; [lra|].
    rewrite fades_app, fades_glows. simpl. change (INR 1) with 1. lra.
  - destruct (scheduled e); simpl; change (INR 0) with 0; [lra|].
    apply (animate_clock img (setScheduled n e)).
Qed.

Lemma run_clock evs e :
  time (run evs e) = time e + INR (fades (painted evs e)) * timeStep.
Proof.
  revert e. induction evs as [|ev evs IH]; intros e; simpl;
    [change (INR 0) with 0; lra|].
  rewrite IH, handle_clock, fades_app, plus_INR. lra.
Qed.

(** What a frame callback does to a running engine with a callback
    waiting: the tick body, once, and one successor scheduled. *)
Lemma frame_ticks_once img e n :
  isRunning e = true -> scheduled e = S n ->
  let e' := fst (handle (AnimationFrame img) e) in
  isRunning e' = true /\ scheduled e' = S n /\
  time e' = time e + timeStep /\
  mouse e' = followMouse (mouse e) /\
  particles e' =
    map (moveParticle (width e) (height e) (followMouse (mouse e)))
        (particles e) /\
  fades (snd (handle (AnimationFrame img) e)) = 1%nat.
Proof.
  intros Hrun Hs. simpl. rewrite Hs.
  rewrite (animate_running img (setScheduled n e)) by exact Hrun. simpl.
  rewrite fades_app, fades_glows. repeat split; reflexivity.
Qed.

(** While no visibility change arrives, a running engine keeps the
    number of waiting callbacks, and the tick body runs once per frame
    and for nothing else. *)
Lemma handle_visible_loop ev e n :
  isVisibilityChange ev = false ->
  isRunning e = true -> scheduled e = S n ->
  isRunning (fst (handle ev e)) = true /\
  scheduled (fst (handle ev e)) = S n /\
  fades (snd (handle ev e)) = frameCount [ev].
Proof.
  intros Hev Hrun Hs.
  destruct ev as [x y|[|[x y] rest]|c|hidden img|img];
    try discriminate; try (simpl; auto; fail).
  destruct (frame_ticks_once img e n Hrun Hs) as (H1 & H2 & _ & _ & _ & H3).
  auto.
Qed.

Lemma run_visible_loop evs e n :
  forallb (fun ev => negb (isVisibilityChange ev)) evs = true ->
  isRunning e = true -> scheduled e = S n ->
  isRunning (run evs e) = true /\
  scheduled (run evs e) = S n /\
  fades (painted evs e) = frameCount evs.
Proof.
  revert e. induction evs as [|ev evs IH]; intros e Hevs Hrun Hs; simpl.
  - auto.
  - simpl in Hevs. apply andb_prop in Hevs. destruct Hevs as [Hev Hevs].
    assert (Hvis : isVisibilityChange ev = false)
      by now destruct (isVisibilityChange ev).
    destruct (handle_visible_loop ev e n Hvis Hrun Hs) as (H1 & H2 & H3).
    destruct (IH _ Hevs H1 H2) as (H4 & H5 & H6).
    split; [exact H4|]. split; [exact H5|].
    rewrite fades_app, H3, H6.
    destruct ev as [x y|t|c|hidden img|img]; reflexivity.
Qed.

(** X3. From construction on, as long as no visibility change arrives,
    the engine is running with exactly one callback waiting for the next
    animation frame. The tick body has run once for every animation
    frame among the events and for nothing else (pointer and resize
    events run no tick and schedule nothing), so the clock stands at one
    time step per frame; and the next frame callback again runs the tick
    body once (the pointer is smoothed, every particle moved, the clock
    advanced, one fade painted) and leaves one callback waiting. *)
Theorem single_loop_while_visible (c : Container) (g : Random)
    (img img' : ImageData) (evs : list Event) (e0 : LiquidBackground) :
  construct (Some c) g img = inr e0 ->
  forallb (fun ev => negb (isVisibilityChange ev)) evs = true ->
  let e := run evs e0 in
  let e' := fst (handle (AnimationFrame img') e) in
  isRunning e = true /\ scheduled e = 1%nat /\
  fades (painted evs e0) = frameCount evs /\
  time e = time e0 + INR (frameCount evs) * timeStep /\
  isRunning e' = true /\ scheduled e' = 1%nat /\
  time e' = time e + timeStep /\
  mouse e' = followMouse (mouse e) /\
  particles e' =
    map (moveParticle (width e) (height e) (followMouse (mouse e)))
        (particles e) /\
  fades (snd (handle (AnimationFrame img') e)) = 1%nat.
Proof.
  intros Hnew Hevs e e'.
  assert (H0 : isRunning e0 = true /\ scheduled e0 = 1%nat).
  { unfold construct in Hnew. injection Hnew as <-. split; reflexivity. }
  destruct H0 as [Hrun0 Hs0].
  destruct (run_visible_loop evs e0 0 Hevs Hrun0 Hs0) as (Hrun & Hs & Hf).
  fold e in Hrun, Hs.
  split; [exact Hrun|]. split; [exact Hs|]. split; [exact Hf|].
  split; [unfold e; now rewrite run_clock, Hf|].
  exact (frame_ticks_once img' e 0 Hrun Hs).
Qed.

Lemma single_loop_while_visible_witness :
  construct (Some (Build_Container 200 100)) (fun _ => 1 / 2) [] =
    inr (fst (animate []
                (init (Build_Container 200 100)
                      (mkEngine 0 0 80 [] (Mouse.mk 0 0 0 0) 0 true palette
                                (fun _ => 1 / 2) 0)))) /\
  forallb (fun ev => negb (isVisibilityChange ev))
          [AnimationFrame []; MouseMove 10 20;
           WindowResize (Build_Container 300 50); AnimationFrame []] = true /\
  fades
    (painted [AnimationFrame []; MouseMove 10 20;
              WindowResize (Build_Container 300 50); AnimationFrame []]
             (fst (animate []
                     (init (Build_Container 200 100)
                           (mkEngine 0 0 80 [] (Mouse.mk 0 0 0 0) 0 true
                                     palette (fun _ => 1 / 2) 0))))) =
    2%nat.
Proof.
  split; [reflexivity|]. split; [reflexivity|].
  destruct (single_loop_while_visible
              (Build_Container 200 100) (fun _ => 1 / 2) [] []
              [AnimationFrame []; MouseMove 10 20;
               WindowResize (Build_Container 300 50); AnimationFrame []]
              _ eq_refl eq_refl) as (_ & _ & Hf & _).
  exact Hf.
Defined.

(** X4. Hiding the page and showing it again, with no animation frame
    delivered in between, leaves the engine running with one more
    callback scheduled than before: the resume runs a tick at once and
    schedules a successor while the callbacks scheduled before the pause
    are still waiting. The extra callback never goes away: over every
    later sequence of events without a visibility change the engine
    stays running with that same, larger, number of callbacks waiting,
    each frame callback running the tick body once. *)
Theorem resume_adds_a_loop (e : LiquidBackground) (i1 i2 : ImageData)
    (evs : list Event) :
  forallb (fun ev => negb (isVisibilityChange ev)) evs = true ->
  let resumed := run [VisibilityChange true i1; VisibilityChange false i2] e in
  let later := run evs resumed in
  isRunning resumed = true /\
  scheduled resumed = S (scheduled e) /\
  time resumed = time e + timeStep /\
  isRunning later = true /\
  scheduled later = S (scheduled e) /\
  fades (painted evs resumed) = frameCount evs /\
  time later = time resumed + INR (frameCount evs) * timeStep.
Proof.
  intros Hevs resumed later.
  assert (Hrun : isRunning resumed = true) by reflexivity.
  assert (Hs : scheduled resumed = S (scheduled e)) by reflexivity.
  assert (Ht : time resumed = time e + timeStep) by reflexivity.
  destruct (run_visible_loop evs resumed (scheduled e) Hevs Hrun Hs)
    as (Hrun' & Hs' & Hf).
  repeat split; try assumption.
  unfold later. now rewrite run_clock, Hf.
Qed.

Lemma resume_adds_a_loop_witness :
  forallb (fun ev => negb (isVisibilityChange ev))
          [AnimationFrame []; MouseMove 1 2; AnimationFrame [];
           AnimationFrame []] = true /\
  scheduled
    (run [AnimationFrame []; MouseMove 1 2; AnimationFrame [];
          AnimationFrame []]
         (run [VisibilityChange true []; VisibilityChange false []]
              (scenario 80))) = 2%nat.
Proof.
  split; [reflexivity|].
  destruct (resume_adds_a_loop (scenario 80) [] []
              [AnimationFrame []; MouseMove 1 2; AnimationFrame [];
               AnimationFrame []] eq_refl)
    as (_ & _ & _ & _ & Hs & _).
  exact Hs.
Defined.

(** X5. The engine clock counts tick bodies: over any sequence of events
    it ends at the start value plus one time step (0.01) for every fade
    fill painted, that is, for every tick body run; so it never goes back,
    and it stands still exactly when nothing is painted. *)
Theorem clock_counts_ticks (evs : list Event) (e : LiquidBackground) :
  time (run evs e) = time e + INR (fades (painted evs e)) * timeStep /\
  time e <= time (run evs e).
Proof.
  split; [apply run_clock|].
  rewrite run_clock. pose proof (pos_INR (fades (painted evs e))).
  unfold timeStep. nra.
Qed.

(** ** Particle motion *)

Lemma abs_le_hypot dx dy : Rabs dx <= sqrt (dx * dx + dy * dy).
Proof.
  rewrite <- sqrt_Rsqr_abs. apply sqrt_le_1_alt. unfold Rsqr. nra.
Qed.

Lemma hypot_scale c dx dy :
  0 <= c ->
  sqrt (c * dx * (c * dx) + c * dy * (c * dy)) =
    c * sqrt (dx * dx + dy * dy).
Proof.
  intros Hc.
  replace (c * dx * (c * dx) + c * dy * (c * dy))
    with (c * c * (dx * dx + dy * dy)) by ring.
  rewrite sqrt_mult_alt by nra.
  now rewrite sqrt_square.
Qed.

Lemma pointerForce_range d : 0 <= d -> 0 <= pointerForce d <= 1.
Proof.
  intros Hd. unfold pointerForce, force, maxDist.
  destruct (Rlt_dec d 400); lra.
Qed.

(** The reach of the pointer times the force at that reach is at most
    100: the push of one tick, with the gain, is at most 2 units. *)
Lemma push_bound d : 0 <= d -> 0 <= d * pointerForce d * gain <= 2.
Proof.
  intros Hd. unfold pointerForce, force, maxDist, gain.
  destruct (Rlt_dec d 400) as [Hlt|Hge]; [|lra].
  assert (Hsq : d * (400 - d) <= 40000).
  { pose proof (Rle_0_sqr (d - 200)) as H. unfold Rsqr in H. lra. }
  assert (Hnn : 0 <= d * (400 - d)) by (apply Rmult_le_pos; lra).
  replace (d * ((400 - d) / 400) * (2 / 100))
    with (d * (400 - d) / 20000) by (field; lra).
  lra.
Qed.

(** X6. The mouse interaction never brings a particle closer to the
    smoothed pointer: it scales the offset between pointer and particle
    by [1 + force * gain], a factor between 1 and 1.02, so the particle
    is pushed straight away from the pointer (or left alone, at distance
    400 or more and at distance 0), and its distance to the pointer
    grows by that same factor. *)
Theorem mouseInteraction_pushes_away (m : Mouse.t) (p : Particle.t) :
  let dx := Mouse.x m - Particle.x p in
  let dy := Mouse.y m - Particle.y p in
  let dist := sqrt (dx * dx + dy * dy) in
  let c := 1 + pointerForce dist * gain in
  let dx' := Mouse.x m - Particle.x (mouseInteraction m p) in
  let dy' := Mouse.y m - Particle.y (mouseInteraction m p) in
  1 <= c <= 102 / 100 /\
  dx' = c * dx /\ dy' = c * dy /\
  sqrt (dx' * dx' + dy' * dy') = c * dist /\
  dist <= sqrt (dx' * dx' + dy' * dy').
Proof.
  intros dx dy dist c dx' dy'.
  pose proof (sqrt_pos (dx * dx + dy * dy)) as Hdist. fold dist in Hdist.
  pose proof (pointerForce_range dist Hdist) as Hf.
  assert (Hc : 1 <= c <= 102 / 100).
  { unfold c, gain. lra. }
  assert (Hx : dx' = c * dx).
  { unfold dx'. rewrite mouseInteraction_pointerForce. simpl.
    fold dx dy dist. unfold c, dx. ring. }
  assert (Hy : dy' = c * dy).
  { unfold dy'. rewrite mouseInteraction_pointerForce. simpl.
    fold dx dy dist. unfold c, dy. ring. }
  assert (Hd : sqrt (dx' * dx' + dy' * dy') = c * dist).
  { rewrite Hx, Hy. apply hypot_scale. lra. }
  repeat split; try assumption; try apply Hc.
  rewrite Hd. nra.
Qed.

(** X7. One tick moves a stored coordinate, before the wrap, by at most
    the particle's own drift plus 2 units: the pointer's push is at most
    2 units along each axis, whatever the pointer position. *)
Theorem step_is_bounded (m : Mouse.t) (p : Particle.t) :
  let q := mouseInteraction m (drift p) in
  Rabs (Particle.x q - Particle.x p) <= Rabs (Particle.speedX p) + 2 /\
  Rabs (Particle.y q - Particle.y p) <= Rabs (Particle.speedY p) + 2.
Proof.
  intros q. subst q. rewrite mouseInteraction_pointerForce. simpl.
  set (dx := Mouse.x m - (Particle.x p + Particle.speedX p)).
  set (dy := Mouse.y m - (Particle.y p + Particle.speedY p)).
  set (dist := sqrt (dx * dx + dy * dy)).
  pose proof (sqrt_pos (dx * dx + dy * dy)) as Hdist. fold dist in Hdist.
  pose proof (push_bound dist Hdist) as Hpush.
  pose proof (pointerForce_range dist Hdist) as Hf.
  assert (Hg : 0 <= pointerForce dist * gain).
  { unfold gain. nra. }
  pose proof (abs_le_hypot dx dy) as Hdx. fold dist in Hdx.
  pose proof (abs_le_hypot dy dx) as Hdy.
  replace (dy * dy + dx * dx) with (dx * dx + dy * dy) in Hdy by ring.
  fold dist in Hdy.
  assert (Hpx : Rabs (dx * pointerForce dist * gain) <= 2).
  { rewrite Rmult_assoc, Rabs_mult, (Rabs_pos_eq (_ * gain)) by assumption.
    nra. }
  assert (Hpy : Rabs (dy * pointerForce dist * gain) <= 2).
  { rewrite Rmult_assoc, Rabs_mult, (Rabs_pos_eq (_ * gain)) by assumption.
    nra. }
  split.
  - replace (Particle.x p + Particle.speedX p -
             dx * pointerForce dist * gain - Particle.x p)
      with (Particle.speedX p + - (dx * pointerForce dist * gain)) by ring.
    eapply Rle_trans; [apply Rabs_triang|]. rewrite Rabs_Ropp. lra.
  - replace (Particle.y p + Particle.speedY p -
             dy * pointerForce dist * gain - Particle.y p)
      with (Particle.speedY p + - (dy * pointerForce dist * gain)) by ring.
    eapply Rle_trans; [apply Rabs_triang|]. rewrite Rabs_Ropp. lra.
Qed.

Lemma moveParticle_sameIdentity w h m p :
  sameIdentity p (moveParticle w h m p).
Proof.
  unfold sameIdentity, moveParticle, keepInBounds, mouseInteraction; simpl.
  destruct (Rlt_dec _ maxDist); simpl; repeat split.
Qed.

(** X8. A tick changes nothing of a particle but its position: the
    particles stay the same in number and order, and each keeps its base
    position, size, drift, colour, phase and amplitude, whether the
    engine is running or paused. *)
Theorem tick_keeps_identity (img : ImageData) (e : LiquidBackground) :
  Forall2 sameIdentity (particles e) (particles (tick img e)).
Proof.
  unfold tick, animate. destruct (isRunning e); simpl.
  - induction (particles e) as [|p ps IH]; simpl; constructor;
      auto using moveParticle_sameIdentity.
  - induction (particles e) as [|p ps IH]; constructor; auto.
    repeat split.
Qed.

(** X9. The wrap step is a projection onto the wrap box: for a particle
    of non-negative size, a particle already inside the box is returned
    as it is, and wrapping twice is the same as wrapping once. *)
Theorem keepInBounds_projects (w h : nat) (p : Particle.t) :
  0 <= Particle.size p ->
  (inBox w h p -> keepInBounds w h p = p) /\
  keepInBounds w h (keepInBounds w h p) = keepInBounds w h p.
Proof.
  intros Hs.
  pose proof (pos_INR w) as Hw. pose proof (pos_INR h) as Hh.
  assert (Hfix : forall q, 0 <= Particle.size q -> inBox w h q ->
                           keepInBounds w h q = q).
  { intros q Hq [Hx Hy]. unfold keepInBounds.
    rewrite !wrap_inside by assumption. apply setPosition_same. }
  split; [now apply Hfix|].
  apply Hfix; [assumption|].
  unfold inBox, keepInBounds; simpl.
  split; apply wrap_range; assumption.
Qed.

Lemma keepInBounds_projects_witness :
  0 <= Particle.size edgeParticle /\
  inBox 1000 1000 edgeParticle /\
  keepInBounds 1000 1000 edgeParticle = edgeParticle.
Proof.
  assert (Hs : 0 <= Particle.size edgeParticle) by (simpl; lra).
  assert (H1000 : INR 1000 = 1000) by (rewrite INR_IZR_INZ; reflexivity).
  assert (Hin : inBox 1000 1000 edgeParticle).
  { unfold inBox; simpl. rewrite H1000. lra. }
  split; [exact Hs|]. split; [exact Hin|].
  exact (proj1 (keepInBounds_projects 1000 1000 edgeParticle Hs) Hin).
Defined.

(** ** Creation and resize *)

Lemma pushParticles_Forall (P : Particle.t -> Prop) count w h cols g acc :
  (forall g', unitRange g' -> P (newParticle w h cols g')) ->
  unitRange g -> Forall P acc ->
  Forall P (fst (pushParticles count w h cols g acc)).
Proof.
  intros Hnew. revert g acc.
  induction count as [|count IH]; intros g acc Hg Hacc; simpl; [assumption|].
  apply IH; [now apply unitRange_skip|].
  apply Forall_app. split; [assumption|].
  constructor; [now apply Hnew|constructor].
Qed.

Lemma newParticle_placedIn w h cols g :
  unitRange g ->
  placedIn w h (newParticle w h cols g) /\
  80 <= Particle.size (newParticle w h cols g) < 230 /\
  30 <= Particle.amplitude (newParticle w h cols g) < 80 /\
  inBox w h (newParticle w h cols g).
Proof.
  intros Hg. unfold placedIn, inBox, newParticle; simpl.
  pose proof (pos_INR w) as Hw. pose proof (pos_INR h) as Hh.
  pose proof PI_RGT_0 as Hpi.
  pose proof (Hg 0%nat). pose proof (Hg 1%nat). pose proof (Hg 2%nat).
  pose proof (Hg 3%nat). pose proof (Hg 4%nat). pose proof (Hg 5%nat).
  pose proof (Hg 6%nat). pose proof (Hg 8%nat). pose proof (Hg 9%nat).
  repeat split; nra.
Qed.

(** X10. A resize takes the container's dimensions, replaces the
    particles and touches nothing else: pointer, clock, running flag and
    scheduled callbacks stay, nothing is painted, and with [Math.random]
    in [0,1) every new particle has its position and base position inside
    the new viewport, a size in [80,230), an amplitude in [30,80), a drift
    in [-0.25,0.25) per axis and a phase in [0,2*PI); in particular it
    starts inside the wrap box. *)
Theorem resize_relays_field (c : Container) (e : LiquidBackground) :
  unitRange (random e) ->
  let e' := fst (handle (WindowResize c) e) in
  width e' = offsetWidth c /\ height e' = offsetHeight c /\
  mouse e' = mouse e /\ time e' = time e /\
  isRunning e' = isRunning e /\ scheduled e' = scheduled e /\
  snd (handle (WindowResize c) e) = [] /\
  List.length (particles e') = particleCount e /\
  Forall (fun p =>
            placedIn (offsetWidth c) (offsetHeight c) p /\
            80 <= Particle.size p < 230 /\
            30 <= Particle.amplitude p < 80 /\
            inBox (offsetWidth c) (offsetHeight c) p)
         (particles e').
Proof.
  intros Hg e'. subst e'. simpl.
  repeat split; try reflexivity.
  - now rewrite pushParticles_length.
  - apply pushParticles_Forall; [|assumption|constructor].
    intros g' Hg'. now apply newParticle_placedIn.
Qed.

Lemma resize_relays_field_witness :
  unitRange (random (scenario 80)) /\
  Forall (fun p =>
            placedIn 300 50 p /\
            80 <= Particle.size p < 230 /\
            30 <= Particle.amplitude p < 80 /\
            inBox 300 50 p)
         (particles (fst (handle (WindowResize (Build_Container 300 50))
                                 (scenario 80)))).
Proof.
  assert (Hg : unitRange (random (scenario 80))).
  { intros n. simpl. lra. }
  split; [exact Hg|].
  destruct (resize_relays_field (Build_Container 300 50) (scenario 80) Hg)
    as (_ & _ & _ & _ & _ & _ & _ & _ & Hall).
  exact Hall.
Defined.

Lemma pushParticles_draws count w h cols g acc n :
  snd (pushParticles count w h cols g acc) n = g (n + 10 * count)%nat.
Proof.
  revert g acc. induction count as [|count IH]; intros g acc; simpl.
  - f_equal. lia.
  - rewrite IH. unfold skip. f_equal. lia.
Qed.

Lemma newParticle_ext w h cols g g' :
  (forall n, g n = g' n) ->
  newParticle w h cols g = newParticle w h cols g'.
Proof.
  intros Heq. unfold newParticle. now rewrite !Heq.
Qed.

Lemma pushParticles_nth count w h cols g acc i :
  (i < List.length acc + count)%nat ->
  nth_error (fst (pushParticles count w h cols g acc)) i =
    if (i <? List.length acc)%nat then nth_error acc i
    else Some (newParticle w h cols (skip (10 * (i - List.length acc)) g)).
Proof.
  revert g acc. induction count as [|count IH]; intros g acc Hi; simpl.
  - destruct (Nat.ltb_spec i (List.length acc)); [reflexivity|lia].
  - rewrite IH by (rewrite length_app; simpl; lia).
    rewrite length_app; simpl.
    destruct (Nat.ltb_spec i (List.length acc + 1)) as [Hlt|Hge];
      destruct (Nat.ltb_spec i (List.length acc)) as [Hlt'|Hge'];
      try lia.
    + now rewrite nth_error_app1.
    + assert (Hi' : i = List.length acc) by lia.
      rewrite Hi', nth_error_app2, Nat.sub_diag by lia. reflexivity.
    + f_equal. apply newParticle_ext. intros n. unfold skip.
      f_equal. lia.
Qed.

(** X11. Creating the particles draws exactly ten random numbers per
    particle and no more: the [n]-th number available afterwards is the
    one that was [n + 10 * particleCount]-th before, and the [i]-th
    particle is built from the [i]-th block of ten. *)
Theorem createParticles_draws (e : LiquidBackground) (n i : nat) :
  random (createParticles e) n = random e (n + 10 * particleCount e)%nat /\
  ((i < particleCount e)%nat ->
   nth_error (particles (createParticles e)) i =
     Some (newParticle (width e) (height e) (colors e)
                       (skip (10 * i) (random e)))).
Proof.
  unfold createParticles; simpl. split.
  - apply pushParticles_draws.
  - intros Hi. rewrite pushParticles_nth by (simpl; lia). simpl.
    now rewrite Nat.sub_0_r.
Qed.

Lemma createParticles_draws_witness :
  (0 < particleCount (scenario 80))%nat /\
  nth_error (particles (createParticles (scenario 80))) 0 =
    Some (newParticle 200 200 palette (skip (10 * 0) (fun _ => 1 / 2))).
Proof.
  assert (Hi : (0 < particleCount (scenario 80))%nat) by (simpl; lia).
  split; [exact Hi|].
  exact (proj2 (createParticles_draws (scenario 80) 0 0) Hi).
Defined.

(** ** Grain, channel by channel *)

Lemma floor_IZR z : floor (IZR z) = z.
Proof.
  pose proof (floor_bounds (IZR z)) as [Hlo Hhi].
  apply le_IZR in Hlo.
  assert (Hlt : (z < floor (IZR z) + 1)%Z).
  { apply lt_IZR. rewrite plus_IZR. exact Hhi. }
  lia.
Qed.

(** A byte stored into the array is read back as it was. *)
Lemma toUint8Clamp_IZR c : inByte c -> toUint8Clamp (IZR c) = c.
Proof.
  intros [Hlo Hhi]. unfold toUint8Clamp.
  destruct (Rle_dec (IZR c) 0) as [H0|H0].
  { apply le_IZR in H0. lia. }
  destruct (Rle_dec 255 (IZR c)) as [H255|H255].
  { apply le_IZR in H255. lia. }
  rewrite floor_IZR.
  destruct (Rlt_dec (IZR c + 1 / 2) (IZR c)); [lra|].
  destruct (Rlt_dec (IZR c) (IZR c + 1 / 2)); [reflexivity|lra].
Qed.

(** The conversion keeps a number between the bytes that enclose it. *)
Lemma toUint8Clamp_sandwich a b v :
  inByte a -> inByte b -> IZR a <= v <= IZR b ->
  (a <= toUint8Clamp v <= b)%Z.
Proof.
  intros [Ha0 Ha1] [Hb0 Hb1] [Hav Hvb]. unfold toUint8Clamp.
  destruct (Rle_dec v 0) as [H0|H0].
  { assert (IZR a <= 0) as Ha by lra. apply le_IZR in Ha. lia. }
  destruct (Rle_dec 255 v) as [H255|H255].
  { assert (255 <= IZR b) as Hb by lra. apply le_IZR in Hb. lia. }
  pose proof (floor_bounds v) as [Hlo Hhi].
  assert (Haf : (a <= floor v)%Z).
  { apply Z.lt_succ_r. apply lt_IZR. rewrite succ_IZR. lra. }
  assert (Hfb : (floor v <= b)%Z) by (apply le_IZR; lra).
  assert (Hup : IZR (floor v) < v -> (floor v + 1 <= b)%Z).
  { intros Hlt. apply Z.le_succ_l. apply lt_IZR. lra. }
  destruct (Rlt_dec (IZR (floor v) + 1 / 2) v) as [Hhalf|Hhalf].
  { split; [lia|apply Hup; lra]. }
  destruct (Rlt_dec v (IZR (floor v) + 1 / 2)) as [Hlow|Hlow]; [lia|].
  destruct (Z.even (floor v)); [lia|].
  split; [lia|apply Hup; lra].
Qed.

Lemma clampChannel_range v : 0 <= clampChannel v <= 255.
Proof.
  unfold clampChannel, Rmax, Rmin.
  destruct (Rle_dec 255 v); destruct (Rle_dec 0 _); lra.
Qed.

Lemma clampChannel_inside v : 0 <= v <= 255 -> clampChannel v = v.
Proof.
  intros Hv. unfold clampChannel, Rmax, Rmin.
  destruct (Rle_dec 255 v); destruct (Rle_dec 0 _); lra.
Qed.

Lemma clampChannel_between lo hi v :
  0 <= hi -> lo <= 255 -> lo <= v <= hi ->
  Rmax 0 lo <= clampChannel v <= Rmin 255 hi.
Proof.
  intros Hhi Hlo Hv. unfold clampChannel, Rmax, Rmin.
  destruct (Rle_dec 255 v); destruct (Rle_dec 0 lo);
    destruct (Rle_dec 255 hi);
    repeat match goal with
           | |- context [Rle_dec ?a ?b] => destruct (Rle_dec a b)
           end; lra.
Qed.

Lemma nudge_inByte noise c : inByte (nudge noise c).
Proof. apply toUint8Clamp_inByte. Qed.

Lemma nudge_near noise c :
  inByte c -> -4 <= noise <= 4 ->
  (c - 4 <= nudge noise c <= c + 4)%Z.
Proof.
  intros Hc Hn. pose proof Hc as [Hc0 Hc1].
  pose proof (IZR_le _ _ Hc0) as Hr0. pose proof (IZR_le _ _ Hc1) as Hr1.
  assert (Hsand : (Z.max 0 (c - 4) <= nudge noise c <= Z.min 255 (c + 4))%Z).
  { apply toUint8Clamp_sandwich; [unfold inByte; lia..|].
    pose proof (clampChannel_between (IZR c - 4) (IZR c + 4)
                  (IZR c + noise)) as Hb.
    assert (Hmax : IZR (Z.max 0 (c - 4)) = Rmax 0 (IZR c - 4)).
    { unfold Rmax. destruct (Rle_dec 0 (IZR c - 4)) as [H|H].
      - rewrite Z.max_r, minus_IZR; [reflexivity|].
        apply le_IZR. rewrite minus_IZR. exact H.
      - rewrite Z.max_l; [reflexivity|].
        apply le_IZR. rewrite minus_IZR. lra. }
    assert (Hmin : IZR (Z.min 255 (c + 4)) = Rmin 255 (IZR c + 4)).
    { unfold Rmin. destruct (Rle_dec 255 (IZR c + 4)) as [H|H].
      - rewrite Z.min_l; [reflexivity|].
        apply le_IZR. rewrite plus_IZR. exact H.
      - rewrite Z.min_r, plus_IZR; [reflexivity|].
        apply le_IZR. rewrite plus_IZR. lra. }
    rewrite Hmax, Hmin. apply Hb; lra. }
  lia.
Qed.

Lemma nudge_zero c : inByte c -> nudge 0 c = c.
Proof.
  intros Hc. unfold nudge. rewrite Rplus_0_r.
  pose proof Hc as [Hc0 Hc1].
  pose proof (IZR_le _ _ Hc0). pose proof (IZR_le _ _ Hc1).
  rewrite clampChannel_inside by lra.
  now apply toUint8Clamp_IZR.
Qed.

Lemma nth_setChannel i v data k :
  nth k (setChannel i v data) 0%Z =
    if ((k =? i)%nat && (i <? List.length data)%nat)%bool
    then toUint8Clamp v else nth k data 0%Z.
Proof.
  revert i k. induction data as [|c rest IH]; intros [|i] [|k]; simpl;
    try reflexivity.
  - now rewrite andb_false_r.
  - rewrite IH. reflexivity.
Qed.

(** One pass of the loop body, channel by channel. *)
Lemma grain_nth i st k :
  nth k (snd (grain i st)) 0%Z =
    if (((k =? i) || (k =? i + 1) || (k =? i + 2))%nat
        && (k <? List.length (snd st))%nat)%bool
    then nudge ((fst st 0%nat - 1 / 2) * 8) (nth k (snd st) 0%Z)
    else nth k (snd st) 0%Z.
Proof.
  unfold grain, getChannel, nudge; simpl.
  repeat rewrite ?nth_setChannel, ?setChannel_length.
  destruct (Nat.eq_dec k i) as [E|N0];
    [subst k
    |destruct (Nat.eq_dec k (i + 1)) as [E|N1];
     [subst k
     |destruct (Nat.eq_dec k (i + 2)) as [E|N2]; [subst k|]]];
    repeat match goal with
           | |- context [(?a =? ?b)%nat] =>
               destruct (Nat.eqb_spec a b); try lia
           end; simpl;
    repeat match goal with
           | |- context [(?a <? ?b)%nat] =>
               destruct (Nat.ltb_spec a b); try lia
           end; simpl; reflexivity.
Qed.

Lemma grainFrom_nth i st k :
  (i mod 16 = 0)%nat ->
  nth k (snd (grainFrom i st)) 0%Z =
    if ((i <=? k)%nat && sampled (List.length (snd st)) k)%bool
    then nudge ((fst st (k / 16 - i / 16)%nat - 1 / 2) * 8)
               (nth k (snd st) 0%Z)
    else nth k (snd st) 0%Z.
Proof.
  unfold sampled. funelim (grainFrom i st); intros Hi.
  - assert (Hi' : ((i + 16) mod 16 = 0)%nat) by div_lia.
    match goal with
    | IH : forall k' : nat, _ |- _ => rewrite (IH k Hi')
    end.
    rewrite grain_length, !grain_nth. unfold grain at 1; cbn [fst snd].
    unfold skip.
    destruct (Nat.leb_spec (i + 16) k) as [Hfar|Hnear];
      destruct (Nat.leb_spec i k) as [Hik|Hik]; try lia; cbn [andb orb].
    + destruct (Nat.ltb_spec k (List.length (snd st))); cbn [andb orb];
        [|now rewrite !andb_false_r].
      destruct (Nat.eqb_spec k i); [lia|].
      destruct (Nat.eqb_spec k (i + 1)); [lia|].
      destruct (Nat.eqb_spec k (i + 2)); [lia|]. cbn [andb orb].
      destruct (Nat.ltb_spec (k mod 16) 3); [|reflexivity].
      replace (k / 16 - (i + 16) / 16 + 1)%nat with (k / 16 - i / 16)%nat
        by div_lia.
      reflexivity.
    + destruct (Nat.ltb_spec k (List.length (snd st))); cbn [andb orb];
        [|now rewrite !andb_false_r].
      rewrite andb_true_r.
      assert (Hq : (k / 16 - i / 16 = 0)%nat) by div_lia.
      rewrite Hq.
      destruct (Nat.eqb_spec k i); destruct (Nat.eqb_spec k (i + 1));
        destruct (Nat.eqb_spec k (i + 2));
        destruct (Nat.ltb_spec (k mod 16) 3); cbn [andb orb];
        try reflexivity; div_lia.
    + destruct (Nat.eqb_spec k i); [lia|].
      destruct (Nat.eqb_spec k (i + 1)); [lia|].
      destruct (Nat.eqb_spec k (i + 2)); [lia|]. reflexivity.
  - destruct (Nat.leb_spec i k); destruct (Nat.ltb_spec k (List.length (snd st)));
      cbn [andb orb]; try reflexivity; lia.
Qed.

Lemma grainFrom_draws i st n :
  fst (grainFrom i st) n =
    fst st (n + (List.length (snd st) - i + 15) / 16)%nat.
Proof.
  funelim (grainFrom i st).
  - match goal with
    | IH : forall n' : nat, _ |- _ => rewrite IH
    end.
    rewrite grain_length. unfold grain; cbn [fst snd]. unfold skip.
    f_equal. div_lia.
  - f_equal. div_lia.
Qed.

(** X12. The grain overlay in closed form. Channel [k] of the result is
    the input channel, nudged by the noise of pass [k / 16] when [k] is
    inside the buffer and among the first three of its group of sixteen,
    and untouched otherwise (every fourth channel, alpha, in particular);
    the pass of number [j] uses the [j]-th draw, and the overlay uses up
    one draw per started group of sixteen channels. *)
Theorem addNoise_pointwise (g : Random) (data : ImageData) (k n : nat) :
  nth k (snd (addNoise g data)) 0%Z =
    (if sampled (List.length data) k
     then nudge (noiseAt g k) (nth k data 0%Z)
     else nth k data 0%Z) /\
  fst (addNoise g data) n = g (n + (List.length data + 15) / 16)%nat /\
  List.length (snd (addNoise g data)) = List.length data /\
  ((k mod 4 = 3)%nat -> nth k (snd (addNoise g data)) 0%Z = nth k data 0%Z).
Proof.
  unfold addNoise.
  pose proof (grainFrom_nth 0 (g, data) k eq_refl) as Hnth.
  cbn [fst snd] in Hnth.
  replace (k / 16 - 0 / 16)%nat with (k / 16)%nat in Hnth by div_lia.
  cbn [Nat.leb andb] in Hnth.
  split; [exact Hnth|].
  split.
  { rewrite grainFrom_draws. cbn [fst snd]. f_equal. div_lia. }
  split.
  { exact (proj1 (grainFrom_sound 0 (g, data) eq_refl)). }
  intros Hk. rewrite Hnth. unfold sampled.
  destruct (Nat.ltb_spec (k mod 16) 3); [div_lia|].
  now rewrite andb_false_r.
Qed.

Lemma addNoise_pointwise_witness :
  (7 mod 4 = 3)%nat /\
  nth 7 (snd (addNoise (fun _ => 1) [10; 20; 30; 40; 50; 60; 70; 80]%Z)) 0%Z
    = 80%Z.
Proof.
  assert (Hk : (7 mod 4 = 3)%nat) by reflexivity.
  split; [exact Hk|].
  destruct (addNoise_pointwise (fun _ => 1)
              [10; 20; 30; 40; 50; 60; 70; 80]%Z 7 0) as (_ & _ & _ & Ha).
  exact (Ha Hk).
Defined.

Lemma noiseAt_range g k : unitRange g -> -4 <= noiseAt g k < 4.
Proof.
  intros Hg. unfold noiseAt. pose proof (Hg (k / 16)%nat). lra.
Qed.

(** X13. The grain is subtle and safe: on pixel data (every channel a
    byte) and with [Math.random] in [0,1), the overlay keeps the length,
    returns bytes, and changes no channel by more than 4. *)
Theorem addNoise_is_subtle (g : Random) (data : ImageData) (k : nat) :
  unitRange g -> Forall inByte data ->
  List.length (snd (addNoise g data)) = List.length data /\
  Forall inByte (snd (addNoise g data)) /\
  (Z.abs (nth k (snd (addNoise g data)) 0%Z - nth k data 0%Z) <= 4)%Z.
Proof.
  intros Hg Hdata. unfold addNoise.
  destruct (grainFrom_sound 0 (g, data) eq_refl) as (Hlen & Hbyte & _).
  split; [exact Hlen|]. split; [now apply Hbyte|].
  pose proof (grainFrom_nth 0 (g, data) k eq_refl) as Hnth.
  cbn [fst snd] in Hnth.
  replace (k / 16 - 0 / 16)%nat with (k / 16)%nat in Hnth by div_lia.
  cbn [Nat.leb andb] in Hnth.
  rewrite Hnth. unfold sampled.
  destruct (Nat.ltb_spec k (List.length data)) as [Hin|Hout];
    cbn [andb]; [|lia].
  destruct (Nat.ltb_spec (k mod 16) 3); cbn [andb]; [|lia].
  assert (Hc : inByte (nth k data 0%Z)).
  { rewrite Forall_forall in Hdata. apply Hdata. now apply nth_In. }
  pose proof (noiseAt_range g k Hg) as Hn.
  assert (Hn' : -4 <= noiseAt g k <= 4) by lra.
  pose proof (nudge_near (noiseAt g k) _ Hc Hn') as Hnear.
  fold (noiseAt g k). lia.
Qed.

Lemma addNoise_is_subtle_witness :
  unitRange (fun _ => 1 / 4) /\
  Forall inByte [10; 20; 30; 40]%Z /\
  (Z.abs (nth 1 (snd (addNoise (fun _ => (1 / 4)%R) [10; 20; 30; 40])) 0
          - 20) <= 4)%Z.
Proof.
  assert (Hg : unitRange (fun _ => 1 / 4)) by (intros n; lra).
  assert (Hd : Forall inByte [10; 20; 30; 40]%Z).
  { repeat constructor; unfold inByte; lia. }
  split; [exact Hg|]. split; [exact Hd|].
  destruct (addNoise_is_subtle (fun _ => 1 / 4) [10; 20; 30; 40]%Z 1 Hg Hd)
    as (_ & _ & Hnear).
  exact Hnear.
Defined.

(** X14. With every draw equal to 0.5 the noise is zero and the overlay
    hands pixel data back exactly as it received it. *)
Theorem addNoise_neutral (g : Random) (data : ImageData) :
  (forall n, g n = 1 / 2) -> Forall inByte data ->
  snd (addNoise g data) = data.
Proof.
  intros Hg Hdata.
  destruct (grainFrom_sound 0 (g, data) eq_refl) as (Hlen & _ & _).
  cbn [fst snd] in Hlen.
  apply (nth_ext _ _ 0%Z 0%Z); [exact Hlen|].
  intros k Hk. unfold addNoise.
  rewrite (grainFrom_nth 0 (g, data) k eq_refl). cbn [fst snd].
  destruct (_ && _)%bool; [|reflexivity].
  rewrite Hg. replace ((1 / 2 - 1 / 2) * 8) with 0 by lra.
  apply nudge_zero.
  rewrite Forall_forall in Hdata. apply Hdata. apply nth_In.
  unfold addNoise in Hk. rewrite Hlen in Hk. exact Hk.
Qed.

Lemma addNoise_neutral_witness :
  (forall n : nat, (fun _ : nat => 1 / 2) n = 1 / 2) /\
  Forall inByte [0; 128; 255; 7]%Z /\
  snd (addNoise (fun _ => 1 / 2) [0; 128; 255; 7]%Z) = [0; 128; 255; 7]%Z.
Proof.
  assert (Hg : forall n : nat, (fun _ : nat => 1 / 2) n = 1 / 2)
    by reflexivity.
  assert (Hd : Forall inByte [0; 128; 255; 7]%Z).
  { repeat constructor; unfold inByte; lia. }
  split; [exact Hg|]. split; [exact Hd|].
  exact (addNoise_neutral _ _ Hg Hd).
Defined.

(** ** The field in every state *)

Lemma animate_fieldInBox img e :
  fieldInBox e -> fieldInBox (fst (animate img e)).
Proof.
  intros [Hs Hbox]. split; [now apply animate_sound|].
  unfold animate. destruct (isRunning e); simpl; [|assumption].
  destruct Hs as (_ & _ & Hps).
  apply Forall_map. revert Hps. apply Forall_impl.
  intros p (Hsize & _). apply moveParticle_inBox. lra.
Qed.

Lemma createParticles_fieldInBox e :
  colors e = palette -> unitRange (random e) ->
  fieldInBox (createParticles e).
Proof.
  intros Hc Hg. split; [now apply createParticles_sound|].
  unfold createParticles; simpl.
  apply pushParticles_Forall; [|assumption|constructor].
  intros g' Hg'. now apply newParticle_placedIn.
Qed.

Lemma handle_fieldInBox ev e :
  fieldInBox e -> fieldInBox (fst (handle ev e)).
Proof.
  intros Hf. destruct ev as [x y|[|[x y] rest]|c|hidden img|img]; simpl;
    try exact Hf.
  - destruct Hf as [(Hc & Hg & _) _].
    now apply (createParticles_fieldInBox (resize c e)).
  - destruct hidden; [exact Hf|].
    apply (animate_fieldInBox img (setRunning true e)). exact Hf.
  - destruct (scheduled e); [exact Hf|].
    apply (animate_fieldInBox img (setScheduled n e)). exact Hf.
Qed.

(** X20. In every state the engine passes through, from construction
    on and over any sequence of events, with [Math.random] in [0,1):
    every particle's stored position is inside the wrap box of the
    current viewport, its size is in [80,230), its amplitude in [30,80)
    and its colour one of the five palette entries. *)
Theorem field_stays_in_box (c : Container) (g : Random) (img : ImageData)
    (evs : list Event) (e0 : LiquidBackground) :
  unitRange g -> construct (Some c) g img = inr e0 ->
  Forall (fun p =>
            inBox (width (run evs e0)) (height (run evs e0)) p /\
            asCreated p)
         (particles (run evs e0)).
Proof.
  intros Hg Hnew.
  assert (He : e0 =
               fst (animate img
                      (init c (mkEngine 0 0 80 [] (Mouse.mk 0 0 0 0) 0 true
                                        palette g 0)))).
  { unfold construct in Hnew. congruence. }
  assert (H0 : fieldInBox e0).
  { rewrite He. apply animate_fieldInBox.
    now apply (createParticles_fieldInBox (resize c _)). }
  clear He Hnew.
  assert (Hrun : fieldInBox (run evs e0)).
  { revert e0 H0. induction evs as [|ev evs IH]; intros e He; simpl;
      [assumption|].
    apply IH. now apply handle_fieldInBox. }
  destruct Hrun as [(_ & _ & Hps) Hbox].
  apply Forall_forall. intros p Hp.
  rewrite Forall_forall in Hps, Hbox. auto.
Qed.

Lemma field_stays_in_box_witness :
  unitRange (fun _ => 1 / 2) /\
  Forall (fun p =>
            inBox 300 50 p /\ asCreated p)
         (particles
            (run [AnimationFrame []; WindowResize (Build_Container 300 50);
                  AnimationFrame []]
                 (fst (animate []
                         (init (Build_Container 200 100)
                               (mkEngine 0 0 80 [] (Mouse.mk 0 0 0 0) 0 true
                                         palette (fun _ => 1 / 2) 0)))))).
Proof.
  assert (Hg : unitRange (fun _ => 1 / 2)) by (intros n; lra).
  split; [exact Hg|].
  exact (field_stays_in_box (Build_Container 200 100) (fun _ => 1 / 2) []
           [AnimationFrame []; WindowResize (Build_Container 300 50);
            AnimationFrame []] _ Hg eq_refl).
Defined.

(** * The page script *)

(** ** Animated counters *)

Lemma floor_le a b : a <= b -> (floor a <= floor b)%Z.
Proof.
  intros Hab. pose proof (floor_bounds a) as [Ha _].
  pose proof (floor_bounds b) as [_ Hb].
  apply Z.lt_succ_r. apply lt_IZR. rewrite succ_IZR. lra.
Qed.

Lemma round_le a b : a <= b -> (round a <= round b)%Z.
Proof. intros Hab. apply floor_le. lra. Qed.

Lemma round_IZR z : round (IZR z) = z.
Proof.
  unfold round.
  assert (H : (z <= floor (IZR z + 1 / 2) < z + 1)%Z).
  { apply floor_bounds_Z. rewrite plus_IZR. lra. }
  lia.
Qed.

Lemma round_near v : Rabs (IZR (round v) - v) <= 1 / 2.
Proof.
  unfold round. pose proof (floor_bounds (v + 1 / 2)) as [Hlo Hhi].
  apply Rabs_le. lra.
Qed.

Lemma steps_INR : INR Counter.steps = 60.
Proof. unfold Counter.steps. rewrite INR_IZR_INZ. reflexivity. Qed.

Lemma shown_full tgt : shown tgt 60 = tgt.
Proof.
  unfold shown. rewrite steps_INR.
  assert (H60 : INR 60 = 60) by (rewrite INR_IZR_INZ; reflexivity).
  rewrite H60.
  replace (IZR tgt / 60 * 60) with (IZR tgt) by (field; lra).
  rewrite round_IZR. apply Z.min_id.
Qed.

(** While the timer is live the counter has run as many callbacks as the
    timer fired. *)
Lemma counter_running tgt n :
  (n < 60)%nat ->
  Counter.after n (Counter.animateCounter tgt) =
    match n with
    | O => Counter.animateCounter tgt
    | S _ => Counter.mk tgt n (shown tgt n) (Some (shown tgt n)) true
    end.
Proof.
  induction n as [|n IH]; intros Hn; [reflexivity|].
  unfold Counter.after in *. simpl. rewrite IH by lia.
  assert (Hleb : (Counter.steps <=? S n)%nat = false).
  { apply Nat.leb_gt. unfold Counter.steps. lia. }
  destruct n as [|n];
    unfold Counter.onInterval, Counter.animateCounter;
    cbn [Counter.timer Counter.step Counter.target];
    rewrite Hleb; reflexivity.
Qed.

Lemma after_succ n c :
  Counter.after (S n) c = Counter.onInterval (Counter.after n c).
Proof. reflexivity. Qed.

Lemma counter_stopped tgt n :
  (60 <= n)%nat ->
  Counter.after n (Counter.animateCounter tgt) =
    Counter.mk tgt 60 tgt (Some tgt) false.
Proof.
  induction 1 as [|n Hn IH].
  - rewrite (after_succ 59), counter_running by lia.
    unfold Counter.onInterval;
      cbn [Counter.timer Counter.step Counter.target].
    replace (Counter.steps <=? 60)%nat with true by reflexivity.
    unfold Counter.increment. cbn [Counter.target].
    fold (shown tgt 60). rewrite shown_full. reflexivity.
  - rewrite after_succ, IH. reflexivity.
Qed.

(** X15. A counter whose [data-count] parses to [tgt] runs for exactly
    60 timer callbacks: before the 60th the timer is live and the step
    count equals the number of callbacks; from the 60th on the timer is
    cleared, the element shows exactly [tgt], and further firings change
    nothing. *)
Theorem counter_finishes (tgt : Z) (n : nat) :
  ((n < 60)%nat ->
   Counter.timer (Counter.after n (Counter.animateCounter tgt)) = true /\
   Counter.step (Counter.after n (Counter.animateCounter tgt)) = n) /\
  ((60 <= n)%nat ->
   Counter.after n (Counter.animateCounter tgt) =
     Counter.mk tgt 60 tgt (Some tgt) false).
Proof.
  split.
  - intros Hn. rewrite counter_running by assumption.
    destruct n; split; reflexivity.
  - apply counter_stopped.
Qed.

Lemma counter_finishes_witness :
  (59 < 60)%nat /\ (75 <= 75)%nat /\ (60 <= 75)%nat /\
  Counter.step (Counter.after 59 (Counter.animateCounter 1234)) = 59%nat /\
  Counter.after 75 (Counter.animateCounter 1234) =
    Counter.mk 1234 60 1234 (Some 1234%Z) false.
Proof.
  assert (H59 : (59 < 60)%nat) by lia.
  assert (H75 : (60 <= 75)%nat) by lia.
  split; [exact H59|]. split; [lia|]. split; [exact H75|].
  destruct (counter_finishes 1234 59) as [Hrun _].
  destruct (counter_finishes 1234 75) as [_ Hstop].
  split; [exact (proj2 (Hrun H59))|exact (Hstop H75)].
Defined.

Lemma counter_text tgt n :
  (1 <= n)%nat ->
  Counter.textContent (Counter.after n (Counter.animateCounter tgt)) =
    Some (if (n <? 60)%nat then shown tgt n else tgt).
Proof.
  intros Hn. destruct (Nat.ltb_spec n 60) as [Hlt|Hge].
  - rewrite counter_running by assumption. destruct n; [lia|reflexivity].
  - now rewrite counter_stopped.
Qed.

Lemma shown_range tgt n :
  (0 <= tgt)%Z -> (n <= 60)%nat ->
  (0 <= shown tgt n <= tgt)%Z /\
  shown tgt n = round (IZR tgt / 60 * INR n).
Proof.
  intros Ht Hn. unfold shown. rewrite steps_INR.
  pose proof (IZR_le _ _ Ht) as Hr. pose proof (pos_INR n) as Hn0.
  assert (Hn60 : INR n <= 60).
  { replace 60 with (INR 60) by (rewrite INR_IZR_INZ; reflexivity).
    now apply le_INR. }
  assert (Hv : 0 <= IZR tgt / 60 * INR n <= IZR tgt) by (split; nra).
  pose proof (round_le _ _ (proj1 Hv)) as Hlo.
  pose proof (round_le _ _ (proj2 Hv)) as Hhi.
  rewrite round_IZR in Hlo, Hhi. lia.
Qed.

Lemma shown_mono tgt n m :
  (0 <= tgt)%Z -> (n <= m)%nat -> (shown tgt n <= shown tgt m)%Z.
Proof.
  intros Ht Hnm. unfold shown. rewrite steps_INR.
  apply Z.min_le_compat_r. apply round_le.
  pose proof (IZR_le _ _ Ht) as Hr. pose proof (le_INR _ _ Hnm).
  nra.
Qed.

(** X16. For a target that is not negative, the number a counter shows
    never goes down and never leaves [0, tgt]: after callbacks [n <= m],
    with [n] at least 1, it shows [a] and then [b] with
    [0 <= a <= b <= tgt]; and while the timer is live, what it shows after
    [n] callbacks is within one half of [tgt * n / 60]. *)
Theorem counter_rises (tgt : Z) (n m : nat) :
  (0 <= tgt)%Z -> (1 <= n)%nat -> (n <= m)%nat ->
  exists a b,
    Counter.textContent (Counter.after n (Counter.animateCounter tgt)) =
      Some a /\
    Counter.textContent (Counter.after m (Counter.animateCounter tgt)) =
      Some b /\
    (0 <= a <= b)%Z /\ (b <= tgt)%Z /\
    ((n < 60)%nat -> Rabs (IZR a - IZR tgt * INR n / 60) <= 1 / 2).
Proof.
  intros Ht Hn Hnm.
  rewrite !counter_text by lia.
  do 2 eexists. split; [reflexivity|]. split; [reflexivity|].
  destruct (Nat.ltb_spec n 60) as [Hn60|Hn60];
    destruct (Nat.ltb_spec m 60) as [Hm60|Hm60]; try lia.
  - destruct (shown_range tgt n Ht) as [Hrn Hen]; [lia|].
    destruct (shown_range tgt m Ht) as [Hrm _]; [lia|].
    pose proof (shown_mono tgt n m Ht Hnm).
    repeat split; try lia.
    intros _. rewrite Hen.
    replace (IZR tgt * INR n / 60) with (IZR tgt / 60 * INR n)
      by (field; lra).
    apply round_near.
  - destruct (shown_range tgt n Ht) as [Hrn Hen]; [lia|].
    repeat split; try lia.
    intros _. rewrite Hen.
    replace (IZR tgt * INR n / 60) with (IZR tgt / 60 * INR n)
      by (field; lra).
    apply round_near.
Qed.

Lemma counter_rises_witness :
  (0 <= 90)%Z /\ (1 <= 1)%nat /\ (1 <= 30)%nat /\
  exists a b,
    Counter.textContent (Counter.after 1 (Counter.animateCounter 90)) =
      Some a /\
    Counter.textContent (Counter.after 30 (Counter.animateCounter 90)) =
      Some b /\
    (0 <= a <= b)%Z /\ (b <= 90)%Z.
Proof.
  assert (H0 : (0 <= 90)%Z) by lia.
  assert (H1 : (1 <= 1)%nat) by lia.
  assert (H30 : (1 <= 30)%nat) by lia.
  split; [exact H0|]. split; [exact H1|]. split; [exact H30|].
  destruct (counter_rises 90 1 30 H0 H1 H30)
    as (a & b & Ha & Hb & Hab & Hbt & _).
  exists a, b. auto.
Defined.

(** X17. A negative target is not animated: the very first callback
    already shows the target itself, and so does every later one. *)
Theorem counter_negative_jumps (tgt : Z) (n : nat) :
  (tgt < 0)%Z -> (1 <= n)%nat ->
  Counter.textContent (Counter.after n (Counter.animateCounter tgt)) =
    Some tgt.
Proof.
  intros Ht Hn. rewrite counter_text by assumption.
  destruct (Nat.ltb_spec n 60) as [Hlt|Hge]; [|reflexivity].
  f_equal. unfold shown. rewrite steps_INR. apply Z.min_r.
  rewrite <- (round_IZR tgt) at 1. apply round_le.
  pose proof (IZR_lt _ _ Ht) as Hr. pose proof (pos_INR n) as Hn0.
  assert (Hn60 : INR n <= 60).
  { replace 60 with (INR 60) by (rewrite INR_IZR_INZ; reflexivity).
    apply le_INR. lia. }
  nra.
Qed.

Lemma counter_negative_jumps_witness :
  (-5 < 0)%Z /\ (1 <= 1)%nat /\
  Counter.textContent (Counter.after 1 (Counter.animateCounter (-5))) =
    Some (-5)%Z.
Proof.
  assert (Ht : (-5 < 0)%Z) by lia.
  assert (Hn : (1 <= 1)%nat) by lia.
  split; [exact Ht|]. split; [exact Hn|].
  exact (counter_negative_jumps (-5) 1 Ht Hn).
Defined.

(** ** Navigation highlight *)

Lemma highlight_absorb id1 id2 links :
  Nav.highlight id2 (Nav.highlight id1 links) = Nav.highlight id2 links.
Proof.
  unfold Nav.highlight. rewrite map_map. reflexivity.
Qed.

Lemma onScroll_last y sections links :
  Nav.onScroll y sections links =
    match Nav.lastInView y sections with
    | Some s => Nav.highlight (Nav.id s) links
    | None => links
    end.
Proof.
  unfold Nav.onScroll, Nav.lastInView.
  induction sections as [|s sections IH] using rev_ind; [reflexivity|].
  rewrite fold_left_app, rev_app_distr. simpl.
  destruct (Nav.inView y s); [|exact IH].
  rewrite IH. destruct (find (Nav.inView y) (rev sections));
    [apply highlight_absorb|reflexivity].
Qed.

Lemma lastInView_inView y sections s :
  Nav.lastInView y sections = Some s ->
  In s sections /\ Nav.inView y s = true.
Proof.
  unfold Nav.lastInView. intros Hfind.
  apply find_some in Hfind. destruct Hfind as [Hin Hview].
  split; [now apply in_rev|assumption].
Qed.

(** X18. The scroll listener of the navigation highlight. If no section
    is in view the links are left exactly as they were; otherwise the
    section found last in document order among those in view decides:
    afterwards a link is active if and only if its [href] is ["#"]
    followed by that section's id, whatever was active before. The links
    keep their number, order and [href]s. *)
Theorem nav_highlights_last_in_view (y : R) (sections : list Nav.Section)
    (links : list Nav.Link) (s : Nav.Section) (l : Nav.Link) :
  map Nav.href (Nav.onScroll y sections links) = map Nav.href links /\
  (Nav.lastInView y sections = None ->
   Nav.onScroll y sections links = links) /\
  (Nav.lastInView y sections = Some s ->
   In s sections /\ Nav.inView y s = true /\
   (In l (Nav.onScroll y sections links) ->
    (Nav.active l = true <->
     Nav.href l = Some (String.append "#" (Nav.id s))))).
Proof.
  rewrite onScroll_last.
  split.
  { destruct (Nav.lastInView y sections); [|reflexivity].
    unfold Nav.highlight. rewrite map_map. reflexivity. }
  split.
  { intros ->. reflexivity. }
  intros Hlast. rewrite Hlast.
  destruct (lastInView_inView y sections s Hlast) as [Hin Hview].
  split; [assumption|]. split; [assumption|].
  intros Hl. unfold Nav.highlight in Hl. apply in_map_iff in Hl.
  destruct Hl as (l0 & <- & _). simpl. unfold Nav.pointsTo.
  destruct (Nav.href l0) as [h|].
  - rewrite String.eqb_eq. split; [now intros ->|].
    intros Heq. now injection Heq.
  - split; discriminate.
Qed.

Lemma nav_highlights_last_in_view_witness :
  Nav.lastInView 650
    [Nav.mkSection 0 600 "home"; Nav.mkSection 600 500 "work";
     Nav.mkSection 700 400 "team"] =
    Some (Nav.mkSection 700 400 "team") /\
  In (Nav.mkLink (Some "#home"%string) false)
     (Nav.onScroll 650
        [Nav.mkSection 0 600 "home"; Nav.mkSection 600 500 "work";
         Nav.mkSection 700 400 "team"]
        [Nav.mkLink (Some "#home"%string) true;
         Nav.mkLink (Some "#team"%string) false; Nav.mkLink None true]) /\
  (Nav.active (Nav.mkLink (Some "#home"%string) false) = true <->
   Nav.href (Nav.mkLink (Some "#home"%string) false) =
     Some (String.append "#" "team")).
Proof.
  assert (Hlast : Nav.lastInView 650
            [Nav.mkSection 0 600 "home"; Nav.mkSection 600 500 "work";
             Nav.mkSection 700 400 "team"] =
            Some (Nav.mkSection 700 400 "team")).
  { unfold Nav.lastInView, Nav.inView; simpl.
    destruct (Rgt_dec 650 600) as [_|H]; [|lra].
    destruct (Rle_dec 650 1000) as [_|H]; [reflexivity|lra]. }
  assert (Hin : In (Nav.mkLink (Some "#home"%string) false)
                   (Nav.onScroll 650
                      [Nav.mkSection 0 600 "home";
                       Nav.mkSection 600 500 "work";
                       Nav.mkSection 700 400 "team"]
                      [Nav.mkLink (Some "#home"%string) true;
                       Nav.mkLink (Some "#team"%string) false;
                       Nav.mkLink None true])).
  { rewrite onScroll_last, Hlast. left. reflexivity. }
  split; [exact Hlast|]. split; [exact Hin|].
  destruct (nav_highlights_last_in_view 650
              [Nav.mkSection 0 600 "home"; Nav.mkSection 600 500 "work";
               Nav.mkSection 700 400 "team"]
              [Nav.mkLink (Some "#home"%string) true;
               Nav.mkLink (Some "#team"%string) false;
               Nav.mkLink None true]
              (Nav.mkSection 700 400 "team")
              (Nav.mkLink (Some "#home"%string) false))
    as (_ & _ & Hsome).
  destruct (Hsome Hlast) as (_ & _ & Hiff).
  exact (Hiff Hin).
Defined.

(** ** Mobile menu *)

Lemma menu_handle_inSync ev s :
  Menu.inSync s -> Menu.inSync (Menu.handle ev s).
Proof.
  intros (Hm & Ho & Ha). destruct ev as [| |key]; simpl.
  - unfold Menu.inSync; simpl. rewrite Hm. auto.
  - repeat split.
  - destruct (String.eqb key "Escape" && Menu.menuActive s)%bool;
      repeat split; assumption.
Qed.

(** X19. The mobile menu stays in step. Starting from a state in which
    button, menu, page scroll lock and [aria-expanded] agree, they agree
    after any sequence of button clicks, link clicks and key presses; a
    second button click undoes the first; a link click always closes the
    menu, Escape closes an open menu, and any other key changes
    nothing. *)
Theorem menu_stays_in_sync (evs : list Menu.Event) (s : Menu.t)
    (key : string) :
  Menu.inSync s ->
  Menu.inSync (Menu.run evs s) /\
  Menu.handle Menu.BtnClick (Menu.handle Menu.BtnClick s) = s /\
  Menu.handle Menu.LinkClick s = Menu.closed /\
  (Menu.menuActive s = true ->
   Menu.handle (Menu.KeyDown "Escape") s = Menu.closed) /\
  (key <> "Escape"%string -> Menu.handle (Menu.KeyDown key) s = s).
Proof.
  intros Hs. split.
  { unfold Menu.run. revert s Hs.
    induction evs as [|ev evs IH]; intros s Hs; simpl; [assumption|].
    apply IH. now apply menu_handle_inSync. }
  split.
  { destruct Hs as (Hm & Ho & Ha).
    destruct s as [b m o a]; simpl in *. subst m o a.
    destruct b; reflexivity. }
  split; [reflexivity|].
  split.
  { intros Hopen. simpl. rewrite Hopen. reflexivity. }
  intros Hkey. simpl.
  destruct (String.eqb_spec key "Escape"); [contradiction|reflexivity].
Qed.

Lemma menu_stays_in_sync_witness :
  Menu.inSync Menu.closed /\
  Menu.inSync (Menu.run [Menu.BtnClick; Menu.KeyDown "a"; Menu.BtnClick;
                         Menu.BtnClick; Menu.KeyDown "Escape"]
                        Menu.closed) /\
  Menu.handle (Menu.KeyDown "Enter") Menu.closed = Menu.closed.
Proof.
  assert (Hs : Menu.inSync Menu.closed) by (repeat split).
  split; [exact Hs|].
  destruct (menu_stays_in_sync
              [Menu.BtnClick; Menu.KeyDown "a"; Menu.BtnClick;
               Menu.BtnClick; Menu.KeyDown "Escape"]
              Menu.closed "Enter" Hs) as (Hrun & _ & _ & _ & Hkey).
  split; [exact Hrun|].
  apply Hkey. discriminate.
Defined.
